(** * Pass-Gen: password generation and strength estimation

    A shallow embedding of [src/scripts/main.ts]: the character sets, the
    password generator, the strength estimator, the crack-time formatter and
    the strength-tier classifier, followed by the properties proved of them.

    JavaScript numbers are IEEE-754 binary64 values; they are modelled by
    [spec_float] (sign, mantissa, exponent; one NaN, signed zeros and
    infinities) with the arithmetic of [SpecFloat] at precision 53 and
    maximal exponent 1024. *)

From Stdlib Require Import ZArith List Bool Ascii String Lia.
From Stdlib Require Import Floats.SpecFloat.
Import ListNotations.

Open Scope Z_scope.

(** ** Numbers *)

Module Num.

Definition number : Type := spec_float.

Definition prec : Z := 53.
Definition emax : Z := 1024.

Definition NaN : number := S754_nan.
Definition Infinity : number := S754_infinity false.
Definition zero : number := S754_zero false.

(** The operators of the language on numbers. *)
Definition lt (x y : number) : bool := SFltb x y.
Definition le (x y : number) : bool := SFleb x y.
Definition ge (x y : number) : bool := SFleb y x.
Definition div (x y : number) : number := SFdiv prec emax x y.

(** The number value of [v * 2^e] for an integer v > 0, with sign [s]: the
    nearest binary64 value, ties to the even mantissa, infinite from
    2^1024 - 2^970 on.  A result below the normal range is left to
    [binary_normalize]. *)
Definition round_mag (s : bool) (v e : Z) : number :=
  let L := Z.log2 v in
  if e + L - 52 <? -1074 then binary_normalize prec emax (if s then - v else v) e false
  else if L <=? 52 then
    if e + L - 52 <=? 971
    then S754_finite s (Z.to_pos (v * 2 ^ (52 - L))) (e + L - 52)
    else S754_infinity s
  else
    let sh := L - 52 in
    let q := v / 2 ^ sh in
    let r := v mod 2 ^ sh in
    let up := (2 ^ sh <? 2 * r) || ((2 ^ sh =? 2 * r) && Z.odd q) in
    let q' := if up then q + 1 else q in
    let m := if q' =? 2 ^ 53 then 2 ^ 52 else q' in
    let e' := if q' =? 2 ^ 53 then e + sh + 1 else e + sh in
    if e' <=? 971 then S754_finite s (Z.to_pos m) e' else S754_infinity s.

(** The mantissa of [v] cut to 53 bits, and whether the cut is exact. *)
Definition cut (v : Z) : Z :=
  if Z.log2 v <=? 52 then v * 2 ^ (52 - Z.log2 v) else v / 2 ^ (Z.log2 v - 52).

Definition cut_exact (v : Z) : bool :=
  (Z.log2 v <=? 52) || (v mod 2 ^ (Z.log2 v - 52) =? 0).

Definition of_Z (z : Z) : number :=
  match z with
  | Z0 => S754_zero false
  | Zpos _ => round_mag false z 0
  | Zneg _ => round_mag true (- z) 0
  end.

Definition of_nat (n : nat) : number := of_Z (Z.of_nat n).

(** 2^k as a number, for 0 <= k; infinite from k = 1024 on. *)
Definition pow2 (k : Z) : number :=
  if k <=? 1023 then S754_finite false (Z.to_pos (2 ^ 52)) (k - 52)
  else S754_infinity false.

Definition is_finite (x : number) : bool :=
  match x with
  | S754_zero _ | S754_finite _ _ _ => true
  | _ => false
  end.

Definition is_nan (x : number) : bool :=
  match x with S754_nan => true | _ => false end.

Definition valid (x : number) : bool := valid_binary prec emax x.

End Num.

Import Num.

(** ** Character sets (lines 1-34) *)

Record CharSet := mkCharSet { characters : list ascii }.

Definition getAll (c : CharSet) : list ascii := characters c.

(** [Array.from] of a string: its characters in order. *)
Definition Array_from (s : string) : list ascii := list_ascii_of_string s.

Definition dquote : ascii := ascii_of_nat 34.

Definition LowerCaseSet : CharSet :=
  mkCharSet (Array_from "abcdefghijklmnopqrstuvwxyz").

Definition UpperCaseSet : CharSet :=
  mkCharSet (Array_from "ABCDEFGHIJKLMNOPQRSTUVWXYZ").

Definition NumberSet : CharSet :=
  mkCharSet (Array_from "0123456789").

(** The template literal of line 32; its two escapes denote one backslash
    and one backquote. *)
Definition SymbolSet : CharSet :=
  mkCharSet
    (Array_from ("!@#$%^&*()-_=+[]{};:'" ++ String dquote ",.<>/?\|~`")).

(** The four classes a check box enables (lines 171-174). *)
Definition enabled (c : CharSet) : Prop :=
  In c [LowerCaseSet; UpperCaseSet; NumberSet; SymbolSet].

(** ** Password generator (lines 36-57) *)

Module PasswordGenerator.

(** [new Uint32Array(length)]: [length] words, all zero. *)
Definition Uint32Array (length : nat) : list Z := repeat 0 length.

(** [crypto.getRandomValues(arr)] overwrites every element of [arr] with a
    32-bit word of the secure source; [source i] is the word drawn for
    index [i]. *)
Definition getRandomValues (source : nat -> Z) (arr : list Z) : list Z :=
  map (fun i => source i mod 2 ^ 32) (seq 0 (List.length arr)).

(** One turn of the loop of lines 50-53.  A read outside an array is
    [undefined] ([None]); [undefined % n] is NaN and [pool[NaN]] is
    [undefined] again. *)
Definition push_char (pool : list ascii) (randomBytes : list Z)
  (result : list (option ascii)) (i : nat) : list (option ascii) :=
  let index :=
    match nth_error randomBytes i with
    | Some w => Some (w mod Z.of_nat (List.length pool))
    | None => None
    end in
  let c :=
    match index with
    | Some k => nth_error pool (Z.to_nat k)
    | None => None
    end in
  (result ++ [c])%list.

(** [result.join("")]: an [undefined] element contributes nothing. *)
Fixpoint join (result : list (option ascii)) : string :=
  match result with
  | [] => EmptyString
  | Some c :: rest => String c (join rest)
  | None :: rest => join rest
  end.

Definition pool_of (charSets : list CharSet) : list ascii :=
  flat_map getAll charSets.

Definition generate (charSets : list CharSet) (source : nat -> Z)
  (length : nat) : string :=
  let pool := pool_of charSets in
  if (List.length pool =? 0)%nat then EmptyString
  else
    let randomBytes := getRandomValues source (Uint32Array length) in
    let result := fold_left (push_char pool randomBytes) (seq 0 length) [] in
    join result.

End PasswordGenerator.

(** ** The runtime's [Math.pow] and [Math.log2]

    ECMAScript fixes the results of both functions on special arguments and
    leaves the rest "implementation-approximated".  The special cases are
    written out below; the approximations are the two fields of a
    [MathLib]. *)

Record MathLib := mkMathLib {
  pow_approx : number -> number -> number;
  log2_approx : number -> number
}.

Module JSMath.

Definition one : number := of_Z 1.

(** The exact integer a number denotes, when it denotes one. *)
Definition to_Z (x : number) : option Z :=
  match x with
  | S754_zero _ => Some 0
  | S754_finite s m e =>
      let mag :=
        if 0 <=? e then Some (Zpos m * 2 ^ e)
        else if Zpos m mod 2 ^ (- e) =? 0 then Some (Zpos m / 2 ^ (- e))
        else None in
      match mag with
      | Some v => Some (if s then - v else v)
      | None => None
      end
  | _ => None
  end.

Definition is_integral (x : number) : bool :=
  match to_Z x with Some _ => true | None => false end.

Definition is_odd_integer (x : number) : bool :=
  match to_Z x with Some v => Z.odd v | None => false end.

(** Number::exponentiate, steps 1 to 13. *)
Definition pow (M : MathLib) (base exponent : number) : number :=
  match exponent with
  | S754_nan => NaN
  | S754_zero _ => one
  | _ =>
    match base with
    | S754_nan => NaN
    | S754_infinity false => if lt zero exponent then Infinity else zero
    | S754_infinity true =>
        if lt zero exponent
        then (if is_odd_integer exponent then S754_infinity true else Infinity)
        else (if is_odd_integer exponent then S754_zero true else zero)
    | S754_zero false => if lt zero exponent then zero else Infinity
    | S754_zero true =>
        if lt zero exponent
        then (if is_odd_integer exponent then S754_zero true else zero)
        else (if is_odd_integer exponent then S754_infinity true else Infinity)
    | S754_finite sb _ _ =>
        match exponent with
        | S754_infinity false =>
            match SFcompare (SFabs base) one with
            | Some Gt => Infinity
            | Some Eq => NaN
            | _ => zero
            end
        | S754_infinity true =>
            match SFcompare (SFabs base) one with
            | Some Gt => zero
            | Some Eq => NaN
            | _ => Infinity
            end
        | _ =>
            if sb && negb (is_integral exponent) then NaN
            else pow_approx M base exponent
        end
    end
  end.

(** Math.log2, steps 2 to 6. *)
Definition log2 (M : MathLib) (x : number) : number :=
  match x with
  | S754_nan => NaN
  | S754_infinity false => Infinity
  | S754_zero _ => S754_infinity true
  | _ =>
      if SFeqb x one then zero
      else if lt x zero then NaN
      else log2_approx M x
  end.

End JSMath.

(** *** What the proofs ask of the approximations

    On an integer base and an integer exponent, both at least 1, [pow_approx]
    returns a binary64 value on the same side of every power of two as the
    exact power; on a finite argument from 1 on, [log2_approx] returns a
    value on the same side of every integer k as its argument is of 2^k.
    A faithfully rounded implementation has both properties. *)

Record lawful (M : MathLib) : Prop := mkLawful {
  pow_valid : forall b n, 1 <= b < 2 ^ 53 -> 1 <= n < 2 ^ 53 ->
    valid (pow_approx M (of_Z b) (of_Z n)) = true;
  pow_lower : forall b n k, 1 <= b < 2 ^ 53 -> 1 <= n < 2 ^ 53 ->
    0 <= k <= 1024 -> 2 ^ k <= b ^ n ->
    le (pow2 k) (pow_approx M (of_Z b) (of_Z n)) = true;
  pow_upper : forall b n k, 1 <= b < 2 ^ 53 -> 1 <= n < 2 ^ 53 ->
    0 <= k <= 1023 -> b ^ n <= 2 ^ k ->
    le (pow_approx M (of_Z b) (of_Z n)) (pow2 k) = true;
  log2_lower : forall x k, valid x = true -> is_finite x = true ->
    0 <= k <= 1024 -> le (pow2 k) x = true ->
    le (of_Z k) (log2_approx M x) = true;
  log2_upper : forall x k, valid x = true -> is_finite x = true ->
    0 <= k <= 1024 -> le (pow2 0) x = true -> le x (pow2 k) = true ->
    le (log2_approx M x) (of_Z k) = true
}.

(** *** A reference implementation

    Fixed-point arithmetic on integers: [FB] fractional bits of results,
    [WP] bits of working precision. *)

Module RefMath.

Definition WP : Z := 320.
Definition FB : nat := 128.

(** The first [n] fractional bits of log2 (y / 2^WP), for
    2^WP <= y < 2^(WP+1), by repeated squaring. *)
Fixpoint log2_bits (n : nat) (y acc : Z) : Z :=
  match n with
  | O => acc
  | S n' =>
      let y2 := (y * y) / 2 ^ WP in
      if 2 ^ (WP + 1) <=? y2 then log2_bits n' (y2 / 2) (2 * acc + 1)
      else log2_bits n' y2 (2 * acc)
  end.

(** 2^FB * log2 (m * 2^e), rounded down to an integer; [fixed_one] is the
    fixed-point 1. *)
Definition fixed_one : Z := 2 ^ Z.of_nat FB.

Definition log2_fix (m : positive) (e : Z) : Z :=
  let L := Z.log2 (Zpos m) in
  (e + L) * fixed_one + log2_bits FB (Z.shiftl (Zpos m) (WP - L)) 0.

Definition of_fixed (t : Z) : number :=
  match t with
  | Z0 => zero
  | Zpos _ => round_mag false t (- Z.of_nat FB)
  | Zneg _ => round_mag true (- t) (- Z.of_nat FB)
  end.

Definition log2_ref (x : number) : number :=
  match x with
  | S754_finite false m e => of_fixed (log2_fix m e)
  | _ => NaN
  end.

(** 2^(f / 2^FB) with [WP] fractional bits, for 0 <= f < 2^FB: the product
    of the iterated square roots of 2 selected by the bits of [f]. *)
Fixpoint exp2_bits (n : nat) (i : Z) (f root acc : Z) : Z :=
  match n with
  | O => acc
  | S n' =>
      let root' := Z.sqrt (root * 2 ^ WP) in
      let acc' :=
        if Z.testbit f (Z.of_nat FB - i) then acc * root' / 2 ^ WP else acc in
      exp2_bits n' (i + 1) f root' acc'
  end.

Definition exp2_frac (f : Z) : Z := exp2_bits FB 1 f (2 * 2 ^ WP) (2 ^ WP).

(** |base|^exponent as 2^(exponent * log2 |base|). *)
Definition pow_general (base exponent : number) : number :=
  match base, exponent with
  | S754_finite sb mb eb, S754_finite sy my ey =>
      let lg := log2_fix mb eb in
      let num := (if sy then Zneg my else Zpos my) * lg in
      let pf := if 0 <=? ey then num * 2 ^ ey else num / 2 ^ (- ey) in
      let I := pf / fixed_one in
      let f := pf mod fixed_one in
      let s := sb && JSMath.is_odd_integer exponent in
      if 1100 <? I then S754_infinity s
      else if I <? -1200 then S754_zero s
      else
        round_mag s (exp2_frac f) (I - WP)
  | _, _ => NaN
  end.

(** An integer to a positive integer power is computed exactly and rounded
    once. *)
Definition pow_ref (base exponent : number) : number :=
  match JSMath.to_Z base, JSMath.to_Z exponent with
  | Some b, Some n => if 0 <? n then of_Z (b ^ n) else pow_general base exponent
  | _, _ => pow_general base exponent
  end.

Definition lib : MathLib := mkMathLib pow_ref log2_ref.

End RefMath.

(** ** Password stats (lines 59-78) *)

Record Stats := mkStats { entropyBits : number; crackTimeSeconds : number }.

Module PasswordStatsCalculator.

Definition in_range (lo hi : nat) (c : ascii) : bool :=
  (lo <=? nat_of_ascii c)%nat && (nat_of_ascii c <=? hi)%nat.

Definition is_lower : ascii -> bool := in_range 97 122.   (* [a-z] *)
Definition is_upper : ascii -> bool := in_range 65 90.    (* [A-Z] *)
Definition is_digit : ascii -> bool := in_range 48 57.    (* [0-9] *)
(* [^a-zA-Z0-9] *)
Definition is_other (c : ascii) : bool :=
  negb (is_lower c || is_upper c || is_digit c).

(** [/[class]/.test(password)]: some character of the password is in the
    class. *)
Definition test (class : ascii -> bool) (password : string) : bool :=
  existsb class (list_ascii_of_string password).

(** The variable [pool] after lines 66-70. *)
Definition pool_size (symbolsLength : nat) (password : string) : Z :=
  let pool := 0 in
  let pool := if test is_lower password then pool + 26 else pool in
  let pool := if test is_upper password then pool + 26 else pool in
  let pool := if test is_digit password then pool + 10 else pool in
  let pool :=
    if test is_other password then pool + Z.of_nat symbolsLength else pool in
  pool.

Definition guessesPerSecond : number := of_Z (10 ^ 12).

Definition calculate (M : MathLib) (symbolsLength : nat) (password : string)
  : Stats :=
  let pool := pool_size symbolsLength password in
  let entropyBits :=
    JSMath.log2 M (JSMath.pow M (of_Z pool) (of_nat (String.length password))) in
  let crackTimeSeconds :=
    div (JSMath.pow M (of_Z 2) entropyBits) guessesPerSecond in
  mkStats entropyBits crackTimeSeconds.

End PasswordStatsCalculator.

(** The estimator as line 226 builds it: the symbol count is the length of
    the symbol set. *)
Definition statsCalculator (M : MathLib) (password : string) : Stats :=
  PasswordStatsCalculator.calculate M (List.length (getAll SymbolSet)) password.

(** ** Number to string conversions used by the formatter *)

Module NumberFormat.

Definition digit (d : Z) : ascii := ascii_of_nat (48 + Z.to_nat d).

Fixpoint digits_fuel (fuel : nat) (n : Z) (acc : list ascii) : list ascii :=
  match fuel with
  | O => acc
  | S fuel' =>
      let acc' := digit (n mod 10) :: acc in
      if n / 10 =? 0 then acc' else digits_fuel fuel' (n / 10) acc'
  end.

(** The decimal representation of a non-negative integer; the binary
    length of [n] bounds the number of its decimal digits. *)
Definition decimal_digits (n : Z) : list ascii :=
  digits_fuel (S (Z.to_nat (Z.log2 n))) n [].

Definition decimal (n : Z) : string := string_of_list_ascii (decimal_digits n).

(** Number::toString of a finite number of integer value [v] >= 10^21.
    Step 5 takes integers n, k, s with k >= 1 and 10^(k-1) <= s < 10^k such
    that the number value of s * 10^(n-k) is the number itself and k is as
    small as possible; of several s the one with s * 10^(n-k) closest to
    [v], of two equally close the even one.  As s * 10^(n-k) rounds to the
    number, s is the quotient of [v] by 10^(n-k) or its successor. *)
Definition candidate_ok (v k : Z) (c : Z * Z) : bool :=
  let '(s, n) := c in
  (10 ^ (k - 1) <=? s) && (s <? 10 ^ k)
  && SFeqb (of_Z (s * 10 ^ (n - k))) (of_Z v).

Definition shortest_at (v D k : Z) : option (Z * Z) :=
  let t := D - k in
  let s_lo := v / 10 ^ t in
  let lo := (s_lo, D) in
  let hi :=
    if s_lo + 1 <? 10 ^ k then (s_lo + 1, D) else (10 ^ (k - 1), D + 1) in
  let d_lo := v - s_lo * 10 ^ t in
  let d_hi := (s_lo + 1) * 10 ^ t - v in
  match candidate_ok v k lo, candidate_ok v k hi with
  | true, false => Some lo
  | false, true => Some hi
  | false, false => None
  | true, true =>
      if d_lo <? d_hi then Some lo
      else if d_hi <? d_lo then Some hi
      else if Z.even s_lo then Some lo else Some hi
  end.

(** The least k from [k] on; seventeen digits identify any binary64
    value, and all [D] digits of [v] denote it exactly. *)
Fixpoint shortest_from (fuel : nat) (v D k : Z) : Z * Z * Z :=
  match fuel with
  | O => (v, D, D)
  | S fuel' =>
      match shortest_at v D k with
      | Some (s, n) => (s, n, k)
      | None => shortest_from fuel' v D (k + 1)
      end
  end.

(** Steps 6 to 10 for n > 21: exponential notation, the exponent n - 1
    positive. *)
Definition toString_large (v : Z) : string :=
  let D := Z.of_nat (List.length (decimal_digits v)) in
  let '(s, n, _) := shortest_from 17 v D 1 in
  let e := ("e+" ++ decimal (n - 1))%string in
  match decimal_digits s with
  | [] => e
  | [d] => String d e
  | d :: rest => String d ("." ++ string_of_list_ascii rest ++ e)
  end.

(** Number.prototype.toFixed, step 10: the integer n for which
    n / 10^f - x is closest to zero, the larger of two such; here
    x = m * 2^e > 0. *)
Definition scaled (f : nat) (m : positive) (e : Z) : Z :=
  if 0 <=? e then Zpos m * 2 ^ e * 10 ^ Z.of_nat f
  else (2 * (Zpos m * 10 ^ Z.of_nat f) + 2 ^ (- e)) / (2 * 2 ^ (- e)).

(** Steps 10.b to 10.c: the digits of n, padded with zeros on the left to
    f + 1 digits, a point before the last f. *)
Definition fixed_notation (f : nat) (n : Z) : string :=
  let m := decimal_digits n in
  if (f =? 0)%nat then string_of_list_ascii m
  else
    let k := List.length m in
    let m := if (k <=? f)%nat then (repeat "0"%char (f + 1 - k) ++ m)%list else m in
    let k := List.length m in
    (string_of_list_ascii (firstn (k - f) m) ++ "."
     ++ string_of_list_ascii (skipn (k - f) m))%string.

(** x >= 10^21, for x = m * 2^e; a binary64 value with a negative exponent
    is below 2^53. *)
Definition at_least_1e21 (m : positive) (e : Z) : bool :=
  (0 <=? e) && (10 ^ 21 <=? Zpos m * 2 ^ e).

Definition toFixed (fractionDigits : nat) (x : number) : string :=
  match x with
  | S754_nan => "NaN"
  | S754_infinity s => if s then "-Infinity" else "Infinity"
  | S754_zero _ => fixed_notation fractionDigits 0
  | S754_finite s m e =>
      let sign := if s then "-"%string else EmptyString in
      if at_least_1e21 m e then (sign ++ toString_large (Zpos m * 2 ^ e))%string
      else (sign ++ fixed_notation fractionDigits (scaled fractionDigits m e))%string
  end.

End NumberFormat.

(** ** Crack time formatter (lines 80-102) *)

Module CrackTimeFormatter.

Import NumberFormat.

Definition units : list string :=
  [ EmptyString; "Thousand"; "Million"; "Billion"; "Trillion" ]%string.

(** [${units[idx]}]: an index outside the array reads [undefined]. *)
Definition unit_at (idx : nat) : string :=
  match nth_error units idx with
  | Some u => u
  | None => "undefined"
  end.

(** The loop of lines 96-99; each turn increments [idx], so it makes at
    most [units.length] turns. *)
Fixpoint scale_years (fuel : nat) (years : number) (idx : nat) : number * nat :=
  match fuel with
  | O => (years, idx)
  | S fuel' =>
      if ge years (of_Z 1000) && (idx <? List.length units - 1)%nat
      then scale_years fuel' (div years (of_Z 1000)) (S idx)
      else (years, idx)
  end.

Definition format (seconds : number) : string :=
  let minute := of_Z 60 in
  let hour := of_Z 3600 in
  let day := of_Z 86400 in
  let year := of_Z 31557600 in
  if lt seconds (of_Z 60) then (toFixed 2 seconds ++ " Seconds")%string
  else if lt seconds hour then (toFixed 2 (div seconds minute) ++ " Minutes")%string
  else if lt seconds day then (toFixed 2 (div seconds hour) ++ " Hours")%string
  else if lt seconds year then (toFixed 2 (div seconds day) ++ " Days")%string
  else
    let '(years, idx) := scale_years (List.length units) (div seconds year) 0 in
    (toFixed 2 years ++ " " ++ unit_at idx ++ " Years")%string.

End CrackTimeFormatter.

(** ** Password strength (lines 105-122, 194-200) *)

Record ColorEntry := mkColor { id : nat; type : string; color : string }.

Definition colorCode : list ColorEntry :=
  [ mkColor 0 "Very Weak" "#A10702";
    mkColor 1 "Weak" "#F3A712";
    mkColor 2 "Reasonable" "#8CD867";
    mkColor 3 "Strong" "#04E762";
    mkColor 4 "Very Strong" "#0C7489" ].

Module PasswordStrength.

Definition determine (entropyBits : number) : nat :=
  if lt entropyBits (of_Z 28) then 0%nat
  else if lt entropyBits (of_Z 36) then 1%nat
  else if lt entropyBits (of_Z 60) then 2%nat
  else if lt entropyBits (of_Z 128) then 3%nat
  else 4%nat.

(** [this.colorCode[idx]]: an index outside the table reads [undefined]. *)
Definition getColorAndText (table : list ColorEntry) (entropyBits : number)
  : option ColorEntry :=
  let idx := determine entropyBits in
  nth_error table idx.

End PasswordStrength.

(** ** Controller (lines 124-191, 224-229)

    [updatePassword] reads the slider and the four check boxes and writes
    five fields of the page; it is modelled as a function from the values
    read to the values written.  The slider value is the non-negative
    integer [Number(slider.value)]. *)

Record Inputs := mkInputs {
  slider : nat;
  lwcCheck : bool;
  upcCheck : bool;
  numbersCheck : bool;
  symbolsCheck : bool
}.

Record Display := mkDisplay {
  passwordDisplay : string;
  entropyField : string;
  crackTimeField : string;
  strengthText : string;
  strengthLight : string
}.

Module PasswordUI.

(** Lines 170-174: the sets of the checked boxes, in this order. *)
Definition activeSets (i : Inputs) : list CharSet :=
  let activeSets := [] in
  let activeSets := if lwcCheck i then (activeSets ++ [LowerCaseSet])%list else activeSets in
  let activeSets := if upcCheck i then (activeSets ++ [UpperCaseSet])%list else activeSets in
  let activeSets := if numbersCheck i then (activeSets ++ [NumberSet])%list else activeSets in
  let activeSets := if symbolsCheck i then (activeSets ++ [SymbolSet])%list else activeSets in
  activeSets.

(** [`${Math.round(x)}`].  Math.round gives the integer nearest to x, the
    larger of two equally near, and keeps the sign of a result 0; an integer
    below 10^21 is printed by its decimal digits, zero of either sign as
    "0". *)
Definition rounded_text (x : number) : string :=
  match x with
  | S754_nan => "NaN"
  | S754_infinity s => if s then "-Infinity" else "Infinity"
  | S754_zero _ => "0"
  | S754_finite s m e =>
      let v := if s then Zneg m else Zpos m in
      let n := if 0 <=? e then v * 2 ^ e
               else (2 * v + 2 ^ (- e)) / (2 * 2 ^ (- e)) in
      let sign := if n <? 0 then "-"%string else EmptyString in
      if Z.abs n <? 10 ^ 21 then (sign ++ NumberFormat.decimal (Z.abs n))%string
      else (sign ++ NumberFormat.toString_large (Z.abs n))%string
  end.

(** Lines 176-189.  Destructuring [undefined] throws: [None]. *)
Definition updatePassword (M : MathLib) (symbolsLength : nat)
  (table : list ColorEntry) (source : nat -> Z) (i : Inputs) : option Display :=
  let pwd := PasswordGenerator.generate (activeSets i) source (slider i) in
  let stats := PasswordStatsCalculator.calculate M symbolsLength pwd in
  let entropy := ("~ " ++ rounded_text (entropyBits stats) ++ " Bits")%string in
  let crackTime := CrackTimeFormatter.format (crackTimeSeconds stats) in
  match PasswordStrength.getColorAndText table (entropyBits stats) with
  | Some entry => Some (mkDisplay pwd entropy crackTime (type entry) (color entry))
  | None => None
  end.

(** The controller as lines 224-229 build it. *)
Definition run (M : MathLib) (source : nat -> Z) (i : Inputs) : option Display :=
  updatePassword M (List.length (getAll SymbolSet)) colorCode source i.

End PasswordUI.

(** ** Helpers of the statements *)

Module Aux.

(** The index a 32-bit word selects in the pool (line 51). *)
Definition word_index (pool : list ascii) (w : Z) : Z :=
  w mod Z.of_nat (List.length pool).

(** How many of the 2^32 words select index [k] of a pool of [L]
    characters. *)
Definition words_for (L k : Z) : Z :=
  2 ^ 32 / L + (if k <? 2 ^ 32 mod L then 1 else 0).

Fixpoint nodupb (l : list ascii) : bool :=
  match l with
  | [] => true
  | c :: rest => negb (existsb (Ascii.eqb c) rest) && nodupb rest
  end.

Definition CharSet_eqb (a b : CharSet) : bool :=
  if list_eq_dec ascii_dec (characters a) (characters b) then true else false.

(** The classes of which a character occurs in the password. *)
Definition present (password : string) : list CharSet :=
  ((if PasswordStatsCalculator.test PasswordStatsCalculator.is_lower password
    then [LowerCaseSet] else [])
   ++ (if PasswordStatsCalculator.test PasswordStatsCalculator.is_upper password
       then [UpperCaseSet] else [])
   ++ (if PasswordStatsCalculator.test PasswordStatsCalculator.is_digit password
       then [NumberSet] else [])
   ++ (if PasswordStatsCalculator.test PasswordStatsCalculator.is_other password
       then [SymbolSet] else []))%list.

End Aux.

(** ** The tiers and the format cascade as the specification words them *)

Module Spec.

(** Thresholds of the tiers, first match wins; the last tier has none. *)
Definition tier_thresholds : list (Z * nat) :=
  [ (28, 0%nat); (36, 1%nat); (60, 2%nat); (128, 3%nat) ].

Fixpoint first_below (x : number) (table : list (Z * nat)) (otherwise : nat) : nat :=
  match table with
  | [] => otherwise
  | (bound, tier) :: rest =>
      if lt x (of_Z bound) then tier else first_below x rest otherwise
  end.

Definition tier (entropyBits : number) : nat :=
  first_below entropyBits tier_thresholds 4%nat.

Definition tier_label (t : nat) : string :=
  match t with
  | O => "Very Weak"
  | S O => "Weak"
  | S (S O) => "Reasonable"
  | S (S (S O)) => "Strong"
  | _ => "Very Strong"
  end.

Definition tier_color (t : nat) : string :=
  match t with
  | O => "#A10702"
  | S O => "#F3A712"
  | S (S O) => "#8CD867"
  | S (S (S O)) => "#04E762"
  | _ => "#0C7489"
  end.

(** The literal 59.9: the binary64 value nearest to 599/10. *)
Definition n59_9 : number := div (of_Z 599) (of_Z 10).

(** The character the generator draws at position [i]: the pool's
    character at index (word i) mod (pool length). *)
Definition drawn (source : nat -> Z) (pool : list ascii) (i : nat) : ascii :=
  nth (Z.to_nat ((source i mod 2 ^ 32) mod Z.of_nat (List.length pool))) pool
    Ascii.zero.

(** A password of 218 lowercase letters. *)
Definition long_password : string := string_of_list_ascii (repeat "a"%char 218).

(** The unit labels of the years, and the scaling through them: divide
    by 1000 while the value is at least 1000 and a larger unit remains. *)
Definition year_label (i : nat) : string :=
  match i with
  | O => EmptyString
  | S O => "Thousand"
  | S (S O) => "Million"
  | S (S (S O)) => "Billion"
  | _ => "Trillion"
  end.

Definition thousand : number := of_Z 1000.

Definition scaled_years (y0 : number) : number * nat :=
  if negb (ge y0 thousand) then (y0, 0%nat)
  else
    let y1 := div y0 thousand in
    if negb (ge y1 thousand) then (y1, 1%nat)
    else
      let y2 := div y1 thousand in
      if negb (ge y2 thousand) then (y2, 2%nat)
      else
        let y3 := div y2 thousand in
        if negb (ge y3 thousand) then (y3, 3%nat)
        else (div y3 thousand, 4%nat).

(** The value shown and the text after it. *)
Definition displayed (seconds : number) : number * string :=
  if lt seconds (of_Z 60) then (seconds, "Seconds"%string)
  else if lt seconds (of_Z 3600) then (div seconds (of_Z 60), "Minutes"%string)
  else if lt seconds (of_Z 86400) then (div seconds (of_Z 3600), "Hours"%string)
  else if lt seconds (of_Z 31557600) then (div seconds (of_Z 86400), "Days"%string)
  else
    let '(years, i) := scaled_years (div seconds (of_Z 31557600)) in
    (years, (year_label i ++ " Years")%string).

(** A numeral with exactly two decimal places: an optional minus sign, one
    digit or more, a point, two digits. *)
Definition two_decimals (s : string) : bool :=
  let cs := list_ascii_of_string s in
  let cs :=
    match cs with
    | c :: rest => if Ascii.eqb c "-" then rest else cs
    | [] => cs
    end in
  match rev cs with
  | d2 :: d1 :: p :: i :: int =>
      PasswordStatsCalculator.is_digit d2 && PasswordStatsCalculator.is_digit d1
      && Ascii.eqb p "."
      && forallb PasswordStatsCalculator.is_digit (i :: int)
  | _ => false
  end.

(** The text before the first space. *)
Fixpoint first_word (s : string) : string :=
  match s with
  | EmptyString => EmptyString
  | String c rest => if Ascii.eqb c " " then EmptyString else String c (first_word rest)
  end.

(** The numbers [toFixed] prints in fixed notation: the finite ones below
    10^21 in magnitude. *)
Definition fixed_range (x : number) : bool :=
  match x with
  | S754_zero _ => true
  | S754_finite _ m e => negb (NumberFormat.at_least_1e21 m e)
  | _ => false
  end.

End Spec.

(** * Properties *)

(** ** The order of numbers *)

Ltac order_cases :=
  repeat match goal with
  | |- context [Z.compare ?a ?b] => destruct (Z.compare_spec a b)
  | H : context [Z.compare ?a ?b] |- _ => destruct (Z.compare_spec a b)
  | |- context [PosDef.Pos.compare_cont Eq ?a ?b] =>
      change (PosDef.Pos.compare_cont Eq a b) with (Pos.compare a b) in *;
      destruct (Pos.compare_spec a b)
  | H : context [PosDef.Pos.compare_cont Eq ?a ?b] |- _ =>
      change (PosDef.Pos.compare_cont Eq a b) with (Pos.compare a b) in *;
      destruct (Pos.compare_spec a b)
  end; cbn [CompOpp] in *; subst; try congruence; try lia.

Lemma le_lt_trans (x y z : number) :
  le x y = true -> lt y z = true -> lt x z = true.
Proof.
  unfold le, lt, SFleb, SFltb, SFcompare.
  destruct x as [sx|sx| |sx mx ex], y as [sy|sy| |sy my ey], z as [sz|sz| |sz mz ez];
    try destruct sx; try destruct sy; try destruct sz; cbn [CompOpp];
    try congruence; intros H1 H2; order_cases.
Qed.

Lemma le_trans (x y z : number) :
  le x y = true -> le y z = true -> le x z = true.
Proof.
  unfold le, lt, SFleb, SFltb, SFcompare.
  destruct x as [sx|sx| |sx mx ex], y as [sy|sy| |sy my ey], z as [sz|sz| |sz mz ez];
    try destruct sx; try destruct sy; try destruct sz; cbn [CompOpp];
    try congruence; intros H1 H2; order_cases.
Qed.

Lemma lt_le_trans (x y z : number) :
  lt x y = true -> le y z = true -> lt x z = true.
Proof.
  unfold le, lt, SFleb, SFltb, SFcompare.
  destruct x as [sx|sx| |sx mx ex], y as [sy|sy| |sy my ey], z as [sz|sz| |sz mz ez];
    try destruct sx; try destruct sy; try destruct sz; cbn [CompOpp];
    try congruence; intros H1 H2; order_cases.
Qed.

(** ** The generator *)

Section Generator.

Import PasswordGenerator.

Variable source : nat -> Z.

Lemma fold_push (pool : list ascii) (randomBytes : list Z) (l : list nat)
  (acc : list (option ascii)) :
  fold_left (push_char pool randomBytes) l acc
  = (acc ++ map (fun i => hd None (push_char pool randomBytes [] i)) l)%list.
Proof.
  revert acc; induction l as [|i l IH]; intros acc; simpl.
  - now rewrite app_nil_r.
  - rewrite IH. unfold push_char. simpl. now rewrite <- app_assoc.
Qed.

Lemma randomBytes_nth (length i : nat) :
  (i < length)%nat ->
  nth_error (getRandomValues source (Uint32Array length)) i
  = Some (source i mod 2 ^ 32).
Proof.
  intros Hi. unfold getRandomValues, Uint32Array.
  rewrite repeat_length.
  rewrite nth_error_map, nth_error_nth' with (d := 0%nat) by now rewrite length_seq.
  now rewrite seq_nth.
Qed.

Lemma push_char_drawn (pool : list ascii) (length i : nat) :
  pool <> [] -> (i < length)%nat ->
  hd None (push_char pool (getRandomValues source (Uint32Array length)) [] i)
  = Some (Spec.drawn source pool i).
Proof.
  intros Hp Hi. unfold push_char. rewrite randomBytes_nth by assumption. simpl.
  unfold Spec.drawn. apply nth_error_nth'.
  assert (0 < Z.of_nat (List.length pool)) by (destruct pool; [congruence | simpl; lia]).
  pose proof (Z.mod_pos_bound (source i mod 2 ^ 32) (Z.of_nat (List.length pool)) H).
  lia.
Qed.

Lemma join_some (l : list ascii) :
  join (map Some l) = string_of_list_ascii l.
Proof. induction l; simpl; congruence. Qed.

Lemma generate_drawn (charSets : list CharSet) (length : nat) :
  pool_of charSets <> [] ->
  generate charSets source length
  = string_of_list_ascii (map (Spec.drawn source (pool_of charSets)) (seq 0 length)).
Proof.
  intros Hp. unfold generate.
  destruct (List.length (pool_of charSets) =? 0)%nat eqn:E.
  - apply Nat.eqb_eq in E. destruct (pool_of charSets); [congruence | discriminate].
  - rewrite fold_push. simpl. rewrite <- join_some, map_map. f_equal.
    apply map_ext_in. intros i Hi. apply in_seq in Hi.
    apply push_char_drawn; [assumption | lia].
Qed.

Lemma drawn_in (pool : list ascii) (i : nat) : pool <> [] -> In (Spec.drawn source pool i) pool.
Proof.
  intros Hp. unfold Spec.drawn. apply nth_In.
  assert (0 < Z.of_nat (List.length pool)) by (destruct pool; [congruence | simpl; lia]).
  pose proof (Z.mod_pos_bound (source i mod 2 ^ 32) (Z.of_nat (List.length pool)) H).
  lia.
Qed.

End Generator.

Lemma enabled_pool (charSets : list CharSet) :
  charSets <> [] -> Forall enabled charSets ->
  PasswordGenerator.pool_of charSets <> [].
Proof.
  intros Hne Hen. destruct charSets as [|c cs]; [congruence|].
  inversion_clear Hen as [|? ? Hc _].
  unfold PasswordGenerator.pool_of. simpl.
  destruct Hc as [<-|[<-|[<-|[<-|[]]]]]; discriminate.
Qed.

Lemma length_string_of_list (l : list ascii) :
  String.length (string_of_list_ascii l) = List.length l.
Proof. induction l; simpl; congruence. Qed.



(** C2. With no class enabled [generate] returns the empty string whatever
    the length, and with length 0 it returns the empty string whatever the
    classes. *)
Theorem generate_empty (charSets : list CharSet) (source : nat -> Z) (length : nat) :
  PasswordGenerator.generate [] source length = EmptyString
  /\ PasswordGenerator.generate charSets source 0 = EmptyString.
Proof.
  split; [reflexivity|].
  unfold PasswordGenerator.generate.
  now destruct (List.length (PasswordGenerator.pool_of charSets) =? 0)%nat.
Qed.

(** C7. [determine] is the first-match cascade over the thresholds 28, 36,
    60 and 128, with tier 4 otherwise, and [getColorAndText] returns the
    table entry of that tier with the stated label and color; in particular
    determine(27) = 0, determine(28) = 1, determine(59.9) = 2 and
    determine(128) = 4. *)
Theorem determine_tiers (entropyBits : number) :
  PasswordStrength.determine entropyBits = Spec.tier entropyBits
  /\ PasswordStrength.getColorAndText colorCode entropyBits
     = Some (mkColor (Spec.tier entropyBits)
                     (Spec.tier_label (Spec.tier entropyBits))
                     (Spec.tier_color (Spec.tier entropyBits)))
  /\ PasswordStrength.determine (of_Z 27) = 0%nat
  /\ PasswordStrength.determine (of_Z 28) = 1%nat
  /\ PasswordStrength.determine Spec.n59_9 = 2%nat
  /\ PasswordStrength.determine (of_Z 128) = 4%nat.
Proof.
  assert (E : PasswordStrength.determine entropyBits = Spec.tier entropyBits).
  { unfold PasswordStrength.determine, Spec.tier, Spec.tier_thresholds, Spec.first_below.
    reflexivity. }
  split; [exact E|]. split; [|repeat split; reflexivity].
  unfold PasswordStrength.getColorAndText. rewrite E.
  unfold Spec.tier, Spec.tier_thresholds, Spec.first_below.
  repeat match goal with |- context [lt ?x ?c] => destruct (lt x c) end; reflexivity.
Qed.

(** C10. [determine] is monotone for the order of numbers, and its result
    is one of 0, 1, 2, 3, 4. *)
Theorem determine_monotone (x y : number) :
  le x y = true ->
  (PasswordStrength.determine x <= PasswordStrength.determine y)%nat
  /\ (PasswordStrength.determine x <= 4)%nat
  /\ (PasswordStrength.determine y <= 4)%nat.
Proof.
  intros Hxy. unfold PasswordStrength.determine.
  assert (T : forall c, lt y c = true -> lt x c = true)
    by (intros c; now apply le_lt_trans).
  destruct (lt y (of_Z 28)) eqn:E1; [rewrite (T _ E1); lia|].
  destruct (lt y (of_Z 36)) eqn:E2;
    [rewrite (T _ E2); destruct (lt x (of_Z 28)); lia|].
  destruct (lt y (of_Z 60)) eqn:E3;
    [rewrite (T _ E3); destruct (lt x (of_Z 28)), (lt x (of_Z 36)); lia|].
  destruct (lt y (of_Z 128)) eqn:E4;
    [rewrite (T _ E4); destruct (lt x (of_Z 28)), (lt x (of_Z 36)), (lt x (of_Z 60)); lia|].
  destruct (lt x (of_Z 28)), (lt x (of_Z 36)), (lt x (of_Z 60)), (lt x (of_Z 128)); lia.
Qed.

Lemma determine_monotone_witness :
  le Spec.n59_9 (of_Z 128) = true
  /\ (PasswordStrength.determine Spec.n59_9 <= PasswordStrength.determine (of_Z 128))%nat.
Proof.
  split; [reflexivity|].
  apply (determine_monotone Spec.n59_9 (of_Z 128)). reflexivity.
Defined.

(** ** The estimator on the empty password *)

Section EstimatorBasics.

Import PasswordStatsCalculator.

(** C3, as the code has it. For the empty password [entropyBits] is +0, and
    [crackTimeSeconds] is 2^0 / 1e12, the positive number 1e-12, which the
    formatter shows as 0.00 seconds. *)
Theorem calculate_empty (M : MathLib) (symbolsLength : nat) :
  let stats := calculate M symbolsLength EmptyString in
  entropyBits stats = zero
  /\ crackTimeSeconds stats = div (of_Z 1) (of_Z (10 ^ 12))
  /\ lt zero (crackTimeSeconds stats) = true
  /\ CrackTimeFormatter.format (crackTimeSeconds stats) = "0.00 Seconds"%string.
Proof. repeat split; reflexivity. Qed.

(** C3 as stated fails: the crack time of the empty password is not 0. *)
Lemma calculate_empty_crack_time_nonzero :
  entropyBits (statsCalculator RefMath.lib EmptyString) = zero
  /\ crackTimeSeconds (statsCalculator RefMath.lib EmptyString)
     = S754_finite false 4951760157141521 (-92)
  /\ SFeqb (crackTimeSeconds (statsCalculator RefMath.lib EmptyString)) zero = false.
Proof. repeat split; reflexivity. Qed.


End EstimatorBasics.

(** ** The formatter *)

Section Formatter.

Import NumberFormat CrackTimeFormatter PasswordStatsCalculator.

Lemma is_digit_digit (d : Z) : 0 <= d < 10 -> is_digit (digit d) = true.
Proof.
  intros H.
  assert (C : d = 0 \/ d = 1 \/ d = 2 \/ d = 3 \/ d = 4 \/ d = 5 \/ d = 6
              \/ d = 7 \/ d = 8 \/ d = 9) by lia.
  repeat (destruct C as [->|C]; [reflexivity|]). now subst.
Qed.

Lemma digits_fuel_digits (fuel : nat) (n : Z) (acc : list ascii) :
  forallb is_digit acc = true ->
  forallb is_digit (digits_fuel fuel n acc) = true.
Proof.
  revert n acc; induction fuel as [|fuel IH]; intros n acc Hacc; cbn [digits_fuel];
    [assumption|].
  assert (Hd : forallb is_digit (digit (n mod 10) :: acc) = true).
  { cbn [forallb]. rewrite Hacc, is_digit_digit; [reflexivity|].
    apply Z.mod_pos_bound; lia. }
  destruct (n / 10 =? 0); [exact Hd | now apply IH].
Qed.

Lemma digits_fuel_length (fuel : nat) (n : Z) (acc : list ascii) :
  (List.length acc <= List.length (digits_fuel fuel n acc))%nat.
Proof.
  revert n acc; induction fuel as [|fuel IH]; intros n acc; cbn [digits_fuel]; [lia|].
  destruct (n / 10 =? 0); [cbn [List.length]; lia|].
  specialize (IH (n / 10) (digit (n mod 10) :: acc)). cbn [List.length] in IH. lia.
Qed.

Lemma decimal_digits_digits (n : Z) : forallb is_digit (decimal_digits n) = true.
Proof. now apply digits_fuel_digits. Qed.

Lemma decimal_digits_nonempty (n : Z) : (1 <= List.length (decimal_digits n))%nat.
Proof.
  unfold decimal_digits. cbn [digits_fuel].
  destruct (n / 10 =? 0); [cbn [List.length]; lia|].
  pose proof (digits_fuel_length (Z.to_nat (Z.log2 n)) (n / 10) [digit (n mod 10)]) as H.
  cbn [List.length] in H. lia.
Qed.

Lemma list_of_append (s1 s2 : string) :
  list_ascii_of_string (s1 ++ s2) = (list_ascii_of_string s1 ++ list_ascii_of_string s2)%list.
Proof. induction s1; simpl; congruence. Qed.

Lemma digit_not_minus (c : ascii) : is_digit c = true -> Ascii.eqb c "-" = false.
Proof.
  intros H. destruct (Ascii.eqb_spec c "-") as [->|]; [discriminate H | reflexivity].
Qed.

Lemma firstn_length_app {A} (l1 l2 : list A) :
  firstn (List.length l1) (l1 ++ l2) = l1.
Proof. now rewrite firstn_app, Nat.sub_diag, firstn_all, firstn_O, app_nil_r. Qed.

Lemma skipn_length_app {A} (l1 l2 : list A) :
  skipn (List.length l1) (l1 ++ l2) = l2.
Proof. now rewrite skipn_app, skipn_all, Nat.sub_diag. Qed.

Lemma forallb_rev' {A} (f : A -> bool) (l : list A) :
  forallb f (rev l) = forallb f l.
Proof.
  induction l as [|a l IH]; [reflexivity|].
  cbn [rev forallb]. rewrite forallb_app, IH. cbn [forallb].
  now rewrite andb_true_r, andb_comm.
Qed.

(** The shape of [fixed_notation 2 n], with or without a sign before it. *)
Lemma fixed_notation_two_decimals (n : Z) (sign : string) :
  sign = EmptyString \/ sign = "-"%string ->
  Spec.two_decimals (sign ++ fixed_notation 2 n) = true.
Proof.
  intros Hs. unfold fixed_notation. cbn [Nat.eqb].
  pose proof (decimal_digits_digits n) as Hm0.
  generalize dependent (decimal_digits n). intros m0 Hm0.
  set (m := if (List.length m0 <=? 2)%nat then (repeat "0"%char (2 + 1 - List.length m0) ++ m0)%list else m0).
  assert (Hm : forallb is_digit m = true).
  { subst m. destruct (List.length m0 <=? 2)%nat; [|exact Hm0].
    rewrite forallb_app, Hm0, andb_true_r.
    generalize (2 + 1 - List.length m0)%nat. intros k; induction k; cbn [repeat forallb]; auto. }
  assert (Hl : (3 <= List.length m)%nat).
  { subst m. destruct (List.length m0 <=? 2)%nat eqn:E.
    - apply Nat.leb_le in E. rewrite length_app, repeat_length. lia.
    - apply Nat.leb_gt in E. lia. }
  clearbody m. clear m0 Hm0.
  assert (R : exists d2 d1 i int, m = (rev int ++ [i] ++ [d1; d2])%list).
  { destruct (rev m) as [|d2 [|d1 [|i int]]] eqn:E;
      try (apply (f_equal (@List.length ascii)) in E; rewrite length_rev in E; simpl in E; lia).
    exists d2, d1, i, int. rewrite <- (rev_involutive m), E. simpl.
    now rewrite <- !app_assoc. }
  destruct R as (d2 & d1 & i & int & ->).
  rewrite !length_app in *. cbn [List.length] in *.
  replace (List.length (rev int) + (1 + 2) - 2)%nat with (List.length (rev int ++ [i])%list)
    by (rewrite length_app; simpl; lia).
  rewrite app_assoc, firstn_length_app, skipn_length_app.
  rewrite !forallb_app in Hm. cbn [forallb] in Hm.
  apply andb_prop in Hm. destruct Hm as [Hint Hm].
  apply andb_prop in Hm. destruct Hm as [Hi Hm].
  rewrite andb_true_r in Hi.
  apply andb_prop in Hm. destruct Hm as [Hd1 Hd2].
  apply andb_prop in Hd2. destruct Hd2 as [Hd2 _].
  unfold Spec.two_decimals.
  rewrite !list_of_append, !list_ascii_of_string_of_list_ascii.
  assert (Hfirst : forall rest,
    match ((rev int ++ [i]) ++ rest)%list with
    | c :: r => if Ascii.eqb c "-" then r else ((rev int ++ [i]) ++ rest)%list
    | [] => ((rev int ++ [i]) ++ rest)%list
    end = ((rev int ++ [i]) ++ rest)%list).
  { intros rest. destruct (rev int) as [|c r] eqn:E; simpl.
    - now rewrite digit_not_minus.
    - assert (Hc : is_digit c = true) by (cbn [forallb] in Hint; now apply andb_prop in Hint).
      now rewrite digit_not_minus. }
  assert (Hbody : match rev ((rev int ++ [i]) ++ list_ascii_of_string "." ++ [d1; d2])%list with
    | d2 :: d1 :: p :: i :: int =>
      is_digit d2 && is_digit d1 && Ascii.eqb p "." && forallb is_digit (i :: int)
    | _ => false
    end = true).
  { rewrite !rev_app_distr. simpl. rewrite rev_involutive.
    rewrite Hd2, Hd1, Hi. simpl. rewrite forallb_rev' in Hint.
    exact Hint. }
  destruct Hs as [-> | ->].
  - simpl list_ascii_of_string at 1. cbn [app]. rewrite Hfirst. exact Hbody.
  - cbn [list_ascii_of_string app]. change (Ascii.eqb "-" "-") with true. cbv iota.
    exact Hbody.
Qed.

Lemma toFixed_two_decimals (x : number) :
  Spec.fixed_range x = true -> Spec.two_decimals (toFixed 2 x) = true.
Proof.
  destruct x as [s|s| |s m e]; simpl; try discriminate; intros H.
  - apply (fixed_notation_two_decimals 0 EmptyString). now left.
  - apply negb_true_iff in H. rewrite H.
    apply fixed_notation_two_decimals. destruct s; auto.
Qed.

Lemma scale_years_spec (y : number) :
  scale_years (List.length units) y 0 = Spec.scaled_years y.
Proof.
  unfold Spec.scaled_years, Spec.thousand. simpl.
  repeat (match goal with |- context [ge ?a ?b] => destruct (ge a b) end; simpl; try reflexivity).
Qed.

Lemma format_displayed (seconds : number) :
  format seconds
  = (toFixed 2 (fst (Spec.displayed seconds)) ++ " " ++ snd (Spec.displayed seconds))%string.
Proof.
  unfold format, Spec.displayed.
  repeat (match goal with |- context [lt ?a ?b] => destruct (lt a b) end; try reflexivity).
  rewrite scale_years_spec.
  destruct (Spec.scaled_years _) as [years i] eqn:E. cbn [fst snd].
  assert (Hi : (i <= 4)%nat).
  { revert E. unfold Spec.scaled_years.
    repeat (match goal with |- context [ge ?a ?b] => destruct (ge a b) end; simpl);
      intros [= <- <-]; lia. }
  do 5 (destruct i as [|i]; [reflexivity|]). lia.
Qed.

End Formatter.

Section FormatterTheorems.

Import NumberFormat CrackTimeFormatter PasswordStatsCalculator.

Lemma first_word_app (s t : string) :
  forallb (fun c => negb (Ascii.eqb c " ")) (list_ascii_of_string s) = true ->
  Spec.first_word (s ++ " " ++ t) = s.
Proof.
  change (" " ++ t)%string with (String " " t).
  induction s as [|c s IH]; cbn [list_ascii_of_string forallb append Spec.first_word].
  - reflexivity.
  - intros H. apply andb_prop in H. destruct H as [Hc Hs].
    apply negb_true_iff in Hc. rewrite Hc. now rewrite IH.
Qed.

Lemma digit_not_space (c : ascii) : is_digit c = true -> negb (Ascii.eqb c " ") = true.
Proof.
  intros H. destruct (Ascii.eqb_spec c " ") as [->|]; [discriminate H | reflexivity].
Qed.

Lemma forallb_weaken {A} (f g : A -> bool) (l : list A) :
  (forall a, f a = true -> g a = true) -> forallb f l = true -> forallb g l = true.
Proof.
  intros Hfg. induction l as [|a l IH]; cbn [forallb]; [reflexivity|].
  intros H. apply andb_prop in H. destruct H as [Ha Hl].
  now rewrite (Hfg _ Ha), IH.
Qed.

Lemma fixed_notation_no_space (n : Z) (sign : string) :
  sign = EmptyString \/ sign = "-"%string ->
  forallb (fun c => negb (Ascii.eqb c " "))
    (list_ascii_of_string (sign ++ fixed_notation 2 n)) = true.
Proof.
  intros Hs. unfold fixed_notation. cbn [Nat.eqb].
  pose proof (decimal_digits_digits n) as Hm0.
  generalize dependent (decimal_digits n). intros m0 Hm0.
  set (m := if (List.length m0 <=? 2)%nat then (repeat "0"%char (2 + 1 - List.length m0) ++ m0)%list else m0).
  assert (Hm : forallb is_digit m = true).
  { subst m. destruct (List.length m0 <=? 2)%nat; [|exact Hm0].
    rewrite forallb_app, Hm0, andb_true_r.
    generalize (2 + 1 - List.length m0)%nat. intros k; induction k; cbn [repeat forallb]; auto. }
  clearbody m. clear m0 Hm0.
  apply (forallb_weaken _ _ _ digit_not_space) in Hm.
  rewrite <- (firstn_skipn (List.length m - 2) m) in Hm.
  rewrite forallb_app in Hm. apply andb_prop in Hm. destruct Hm as [H1 H2].
  rewrite !list_of_append, !list_ascii_of_string_of_list_ascii, !forallb_app, H1, H2.
  destruct Hs as [-> | ->]; reflexivity.
Qed.

Lemma toFixed_no_space (x : number) :
  Spec.fixed_range x = true ->
  forallb (fun c => negb (Ascii.eqb c " ")) (list_ascii_of_string (toFixed 2 x)) = true.
Proof.
  destruct x as [s|s| |s m e]; cbn [Spec.fixed_range toFixed]; try discriminate; intros H.
  - apply (fixed_notation_no_space 0 EmptyString). now left.
  - apply negb_true_iff in H. rewrite H.
    apply fixed_notation_no_space. destruct s; auto.
Qed.

End FormatterTheorems.

Section FormatClaims.

Import CrackTimeFormatter.

(** C6, as the code has it. [format] shows the value and the text of the
    cascade: seconds below 60, minutes below 3600, hours below 86400, days
    below 31557600, and from there on years, divided by 1000 while at least
    1000 and a unit after the current one remains, so that the scaling
    stops at "Trillion"; the empty unit leaves two spaces before "Years".
    The numeral has exactly two decimal places whenever the value shown is
    finite and below 10^21. *)
Theorem format_cascade (seconds : number) :
  format seconds
  = (NumberFormat.toFixed 2 (fst (Spec.displayed seconds)) ++ " "
     ++ snd (Spec.displayed seconds))%string
  /\ (Spec.fixed_range (fst (Spec.displayed seconds)) = true ->
      Spec.two_decimals (Spec.first_word (format seconds)) = true)
  /\ format (of_Z 30) = "30.00 Seconds"%string
  /\ format (of_Z 90) = "1.50 Minutes"%string
  /\ format (of_Z 7200) = "2.00 Hours"%string
  /\ format (of_Z 172800) = "2.00 Days"%string
  /\ format (of_Z 31557600) = "1.00  Years"%string
  /\ format (of_Z 31557600000) = "1.00 Thousand Years"%string
  /\ format (of_Z 0) = "0.00 Seconds"%string
  /\ format (of_Z (31557600 * 10 ^ 15)) = "1000.00 Trillion Years"%string.
Proof.
  split; [apply format_displayed|].
  split; [|repeat split; vm_compute; reflexivity].
  intros H. rewrite format_displayed.
  rewrite first_word_app by now apply toFixed_no_space.
  now apply toFixed_two_decimals.
Qed.

Lemma format_cascade_witness :
  Spec.two_decimals (Spec.first_word (format (of_Z 90))) = true.
Proof.
  apply (proj1 (proj2 (format_cascade (of_Z 90)))). reflexivity.
Defined.

(** C6 as stated fails: a numeral is not always printed with two decimal
    places.  1e41 seconds are 3.17e21 trillion years, which [toFixed]
    prints in exponential notation. *)
Lemma format_not_two_decimals :
  format (of_Z (10 ^ 41)) = "3.1688087814028945e+21 Trillion Years"%string
  /\ Spec.two_decimals (Spec.first_word (format (of_Z (10 ^ 41)))) = false.
Proof. split; vm_compute; reflexivity. Qed.

End FormatClaims.

(** ** Rounding *)

Section Rounding.

Lemma le_finite (m1 m2 e1 e2 : Z) :
  0 < m1 -> 0 < m2 ->
  (e1 < e2 \/ (e1 = e2 /\ m1 <= m2)) ->
  le (S754_finite false (Z.to_pos m1) e1) (S754_finite false (Z.to_pos m2) e2) = true.
Proof.
  intros H1 H2 H. unfold le, SFleb, SFcompare.
  change (PosDef.Pos.compare_cont Eq (Z.to_pos m1) (Z.to_pos m2))
    with (Pos.compare (Z.to_pos m1) (Z.to_pos m2)).
  destruct (Z.compare_spec e1 e2) as [E|E|E]; [|reflexivity|exfalso; lia].
  destruct (Pos.compare_spec (Z.to_pos m1) (Z.to_pos m2)); try reflexivity.
  exfalso; lia.
Qed.

Lemma le_finite_inv (s : bool) (m1 m2 : positive) (e1 e2 : Z) :
  le (S754_finite false m1 e1) (S754_finite s m2 e2) = true ->
  s = false /\ (e1 < e2 \/ (e1 = e2 /\ Zpos m1 <= Zpos m2)).
Proof.
  unfold le, SFleb, SFcompare. destruct s; [discriminate|].
  change (PosDef.Pos.compare_cont Eq m1 m2) with (Pos.compare m1 m2).
  destruct (Z.compare_spec e1 e2); try discriminate;
    destruct (Pos.compare_spec m1 m2); try discriminate; intros _; split; auto; lia.
Qed.

Lemma cut_range (v : Z) : 0 < v -> 2 ^ 52 <= cut v < 2 ^ 53.
Proof.
  intros Hv. unfold cut.
  pose proof (Z.log2_spec v Hv) as [Hlo Hhi].
  pose proof (Z.log2_nonneg v) as HL.
  destruct (Z.leb_spec (Z.log2 v) 52).
  - replace (2 ^ 52) with (2 ^ Z.log2 v * 2 ^ (52 - Z.log2 v))
      by (rewrite <- Z.pow_add_r by lia; f_equal; lia).
    replace (2 ^ 53) with (2 ^ Z.succ (Z.log2 v) * 2 ^ (52 - Z.log2 v))
      by (rewrite <- Z.pow_add_r by lia; f_equal; lia).
    assert (0 < 2 ^ (52 - Z.log2 v)) by (apply Z.pow_pos_nonneg; lia).
    nia.
  - assert (Hp : 0 < 2 ^ (Z.log2 v - 52)) by (apply Z.pow_pos_nonneg; lia).
    split.
    + apply Z.div_le_lower_bound; [assumption|].
      rewrite Z.mul_comm, <- Z.pow_add_r by lia.
      replace (52 + (Z.log2 v - 52)) with (Z.log2 v) by lia. assumption.
    + apply Z.div_lt_upper_bound; [assumption|].
      rewrite <- Z.pow_add_r by lia.
      replace (Z.log2 v - 52 + 53) with (Z.succ (Z.log2 v)) by lia. assumption.
Qed.

(** What [round_mag] returns in the normal range: the cut mantissa or its
    successor, or the next power of two after a carry; infinite when the
    exponent passes 971. *)
Lemma round_mag_cases (s : bool) (v e : Z) :
  0 < v -> -1074 <= e + Z.log2 v - 52 ->
  (exists m, cut v <= m <= cut v + 1 /\ m < 2 ^ 53
             /\ (cut_exact v = true -> m = cut v)
             /\ round_mag s v e
                = if e + Z.log2 v - 52 <=? 971
                  then S754_finite s (Z.to_pos m) (e + Z.log2 v - 52)
                  else S754_infinity s)
  \/ (cut v = 2 ^ 53 - 1 /\ cut_exact v = false
      /\ round_mag s v e
         = if e + Z.log2 v - 51 <=? 971
           then S754_finite s (Z.to_pos (2 ^ 52)) (e + Z.log2 v - 51)
           else S754_infinity s).
Proof.
  intros Hv Hn. pose proof (cut_range v Hv) as Hc.
  unfold round_mag, cut, cut_exact in *.
  destruct (Z.ltb_spec (e + Z.log2 v - 52) (-1074)); [lia|].
  destruct (Z.leb_spec (Z.log2 v) 52).
  - left. exists (v * 2 ^ (52 - Z.log2 v)).
    split; [lia|]. split; [lia|]. split; [reflexivity|].
    replace (e + Z.log2 v - 52) with (e + Z.log2 v - 52) by lia. reflexivity.
  - cbn [orb] in *.
    set (sh := Z.log2 v - 52) in *.
    set (q := v / 2 ^ sh) in *. set (r := v mod 2 ^ sh) in *.
    assert (Hp : 0 < 2 ^ sh) by (apply Z.pow_pos_nonneg; lia).
    assert (Hr : 0 <= r < 2 ^ sh) by (apply Z.mod_pos_bound; assumption).
    set (up := (2 ^ sh <? 2 * r) || ((2 ^ sh =? 2 * r) && Z.odd q)).
    assert (Hup : r = 0 -> up = false).
    { intros ->. subst up. destruct (Z.ltb_spec (2 ^ sh) (2 * 0)); [lia|].
      destruct (Z.eqb_spec (2 ^ sh) (2 * 0)); [lia|reflexivity]. }
    destruct up.
    + destruct (Z.eqb_spec (q + 1) (2 ^ 53)) as [E|E].
      * right. split; [lia|]. split.
        -- destruct (Z.eqb_spec r 0) as [E0|E0]; [now specialize (Hup E0)|reflexivity].
        -- replace (e + sh + 1) with (e + Z.log2 v - 51) by (subst sh; lia).
           reflexivity.
      * left. exists (q + 1). split; [lia|]. split; [lia|]. split.
        -- intros Hex. destruct (Z.eqb_spec r 0) as [E0|E0];
             [now specialize (Hup E0)|discriminate].
        -- replace (e + sh) with (e + Z.log2 v - 52) by (subst sh; lia). reflexivity.
    + destruct (Z.eqb_spec q (2 ^ 53)); [lia|].
      left. exists q. split; [lia|]. split; [lia|]. split; [reflexivity|].
      replace (e + sh) with (e + Z.log2 v - 52) by (subst sh; lia). reflexivity.
Qed.

Lemma le_finite_infinity (s : bool) (m : positive) (e : Z) :
  le (S754_finite s m e) Infinity = true.
Proof. reflexivity. Qed.

(** A normal number below the exact value stays below the rounded one. *)
Lemma round_mag_lower (v e mK eK : Z) :
  0 < v -> -1074 <= e + Z.log2 v - 52 -> 0 < mK ->
  (eK < e + Z.log2 v - 52 \/ (eK = e + Z.log2 v - 52 /\ mK <= cut v)) ->
  le (S754_finite false (Z.to_pos mK) eK) (round_mag false v e) = true.
Proof.
  intros Hv Hn HmK H. pose proof (cut_range v Hv) as Hc.
  destruct (round_mag_cases false v e Hv Hn) as [(m & Hm & _ & _ & ->)|(Hq & _ & ->)].
  - destruct (_ <=? 971); [|reflexivity]. apply le_finite; lia.
  - destruct (_ <=? 971); [|reflexivity]. apply le_finite; lia.
Qed.

(** A normal number above the exact value stays above the rounded one. *)
Lemma round_mag_upper (v e mK eK : Z) :
  0 < v -> -1074 <= e + Z.log2 v - 52 -> 2 ^ 52 <= mK < 2 ^ 53 -> eK <= 971 ->
  (e + Z.log2 v - 52 < eK
   \/ (e + Z.log2 v - 52 = eK /\ (cut v < mK \/ (cut v = mK /\ cut_exact v = true)))) ->
  le (round_mag false v e) (S754_finite false (Z.to_pos mK) eK) = true.
Proof.
  intros Hv Hn HmK HeK H. pose proof (cut_range v Hv) as Hc.
  destruct (round_mag_cases false v e Hv Hn) as [(m & Hm & Hm53 & Hex & ->)|(Hq & Hex & ->)].
  - destruct (Z.leb_spec (e + Z.log2 v - 52) 971); [|lia].
    apply le_finite; try lia.
    destruct H as [H|[H1 [H|[H2 H3]]]]; try lia.
    specialize (Hex H3). lia.
  - destruct H as [H|[H1 [H|[H2 H3]]]]; try lia; [|congruence].
    destruct (Z.leb_spec (e + Z.log2 v - 51) 971); [|lia].
    apply le_finite; lia.
Qed.

Lemma of_Z_small (k : Z) :
  1 <= k < 2 ^ 53 ->
  of_Z k = S754_finite false (Z.to_pos (k * 2 ^ (52 - Z.log2 k))) (Z.log2 k - 52).
Proof.
  intros Hk. assert (HL : 0 <= Z.log2 k < 53).
  { split; [apply Z.log2_nonneg|]. apply Z.log2_lt_pow2; lia. }
  destruct k as [|p|p]; try lia. unfold of_Z, round_mag.
  destruct (Z.ltb_spec (0 + Z.log2 (Z.pos p) - 52) (-1074)); [lia|].
  destruct (Z.leb_spec (Z.log2 (Z.pos p)) 52); [|lia].
  destruct (Z.leb_spec (0 + Z.log2 (Z.pos p) - 52) 971); [|lia].
  f_equal.
Qed.

Lemma of_Z_small_mantissa (k : Z) :
  1 <= k < 2 ^ 53 -> 2 ^ 52 <= k * 2 ^ (52 - Z.log2 k) < 2 ^ 53.
Proof.
  intros Hk. assert (HL : 0 <= Z.log2 k < 53).
  { split; [apply Z.log2_nonneg|]. apply Z.log2_lt_pow2; lia. }
  pose proof (cut_range k ltac:(lia)) as H. unfold cut in H.
  destruct (Z.leb_spec (Z.log2 k) 52); [assumption|lia].
Qed.

End Rounding.

Section Reference.

Import RefMath.

Lemma digits2_log2 (p : positive) : Zpos (digits2_pos p) = Z.log2 (Zpos p) + 1.
Proof.
  induction p as [p IH|p IH|]; cbn [digits2_pos]; [| |reflexivity].
  - rewrite Pos2Z.inj_succ, IH.
    change (Z.pos p~1) with (2 * Z.pos p + 1). rewrite Z.log2_succ_double; lia.
  - rewrite Pos2Z.inj_succ, IH.
    change (Z.pos p~0) with (2 * Z.pos p). rewrite Z.log2_double; lia.
Qed.

(** A valid positive number from 1 on has a 53-bit mantissa. *)
Lemma valid_normal (m : positive) (e : Z) :
  valid (S754_finite false m e) = true -> -1074 < e ->
  Z.log2 (Zpos m) = 52 /\ e <= 971.
Proof.
  unfold valid, valid_binary, bounded, canonical_mantissa, fexp, SpecFloat.emin, prec, emax.
  intros H He. apply andb_prop in H. destruct H as [H1 H2].
  apply Z.eqb_eq in H1. apply Z.leb_le in H2.
  rewrite digits2_log2 in H1. lia.
Qed.

Lemma valid_round_mag (v : Z) : 0 < v -> valid (round_mag false v 0) = true.
Proof.
  intros Hv. pose proof (cut_range v Hv) as Hc.
  pose proof (Z.log2_nonneg v) as HL.
  destruct (round_mag_cases false v 0 Hv ltac:(lia)) as [(m & Hm & Hm53 & _ & ->)|(_ & _ & ->)].
  - destruct (Z.leb_spec (0 + Z.log2 v - 52) 971); [|reflexivity].
    unfold valid, valid_binary, bounded, canonical_mantissa, fexp, SpecFloat.emin, prec, emax.
    rewrite digits2_log2, Z2Pos.id by lia.
    rewrite (Z.log2_unique m 52) by lia.
    apply andb_true_intro. split; [apply Z.eqb_eq|apply Z.leb_le]; lia.
  - destruct (Z.leb_spec (0 + Z.log2 v - 51) 971); [|reflexivity].
    unfold valid, valid_binary, bounded, canonical_mantissa, fexp, SpecFloat.emin, prec, emax.
    rewrite digits2_log2, Z2Pos.id by lia.
    rewrite (Z.log2_unique (2 ^ 52) 52) by lia.
    apply andb_true_intro. split; [apply Z.eqb_eq|apply Z.leb_le]; lia.
Qed.

Lemma to_Z_of_Z (k : Z) : 1 <= k < 2 ^ 53 -> JSMath.to_Z (of_Z k) = Some k.
Proof.
  intros Hk. rewrite of_Z_small by assumption.
  pose proof (of_Z_small_mantissa k Hk) as Hm.
  assert (HL : 0 <= Z.log2 k < 53).
  { split; [apply Z.log2_nonneg|]. apply Z.log2_lt_pow2; lia. }
  unfold JSMath.to_Z. rewrite Z2Pos.id by lia.
  destruct (Z.leb_spec 0 (Z.log2 k - 52)).
  - replace (Z.log2 k - 52) with 0 by lia. replace (52 - Z.log2 k) with 0 by lia.
    f_equal. lia.
  - replace (- (Z.log2 k - 52)) with (52 - Z.log2 k) by lia.
    assert (0 < 2 ^ (52 - Z.log2 k)) by (apply Z.pow_pos_nonneg; lia).
    rewrite Z.mod_mul, Z.div_mul by lia. reflexivity.
Qed.

Lemma pow_ref_exact (b n : Z) :
  1 <= b < 2 ^ 53 -> 1 <= n < 2 ^ 53 ->
  pow_ref (of_Z b) (of_Z n) = round_mag false (b ^ n) 0 /\ 0 < b ^ n.
Proof.
  intros Hb Hn. assert (Hp : 0 < b ^ n) by (apply Z.pow_pos_nonneg; lia).
  split; [|assumption].
  unfold pow_ref. rewrite !to_Z_of_Z by assumption.
  destruct (Z.ltb_spec 0 n); [|lia].
  destruct (b ^ n); try lia. reflexivity.
Qed.

Lemma pow2_finite (k : Z) :
  k <= 1023 -> pow2 k = S754_finite false (Z.to_pos (2 ^ 52)) (k - 52).
Proof. intros H. unfold pow2. destruct (Z.leb_spec k 1023); [reflexivity|lia]. Qed.

Lemma cut_pow2 (k : Z) : 0 <= k -> cut (2 ^ k) = 2 ^ 52 /\ cut_exact (2 ^ k) = true.
Proof.
  intros Hk. unfold cut, cut_exact. rewrite Z.log2_pow2 by assumption.
  destruct (Z.leb_spec k 52).
  - split; [|reflexivity]. rewrite <- Z.pow_add_r by lia. f_equal. lia.
  - assert (E : 2 ^ k = 2 ^ 52 * 2 ^ (k - 52))
      by (rewrite <- Z.pow_add_r by lia; f_equal; lia).
    assert (0 < 2 ^ (k - 52)) by (apply Z.pow_pos_nonneg; lia).
    rewrite E, Z.mod_mul, Z.div_mul by lia. split; reflexivity.
Qed.

Lemma pow_ref_lower (b n k : Z) :
  1 <= b < 2 ^ 53 -> 1 <= n < 2 ^ 53 -> 0 <= k <= 1024 -> 2 ^ k <= b ^ n ->
  le (pow2 k) (pow_ref (of_Z b) (of_Z n)) = true.
Proof.
  intros Hb Hn Hk Hle. destruct (pow_ref_exact b n Hb Hn) as [-> Hv].
  assert (HL : k <= Z.log2 (b ^ n)) by (apply Z.log2_le_pow2; lia).
  pose proof (cut_range _ Hv) as Hc.
  destruct (Z.eq_dec k 1024) as [->|Hk'].
  - unfold pow2. cbn [Z.leb Z.compare].
    destruct (round_mag_cases false (b ^ n) 0 Hv ltac:(lia)) as [(m & _ & _ & _ & ->)|(_ & _ & ->)].
    + destruct (Z.leb_spec (0 + Z.log2 (b ^ n) - 52) 971); [lia|reflexivity].
    + destruct (Z.leb_spec (0 + Z.log2 (b ^ n) - 51) 971); [lia|reflexivity].
  - rewrite pow2_finite by lia. apply round_mag_lower; lia.
Qed.

Lemma pow_ref_upper (b n k : Z) :
  1 <= b < 2 ^ 53 -> 1 <= n < 2 ^ 53 -> 0 <= k <= 1023 -> b ^ n <= 2 ^ k ->
  le (pow_ref (of_Z b) (of_Z n)) (pow2 k) = true.
Proof.
  intros Hb Hn Hk Hle. destruct (pow_ref_exact b n Hb Hn) as [-> Hv].
  rewrite pow2_finite by lia.
  pose proof (Z.log2_nonneg (b ^ n)) as HL.
  apply round_mag_upper; try lia.
  destruct (Z.eq_dec (b ^ n) (2 ^ k)) as [E|E].
  - right. rewrite E. destruct (cut_pow2 k ltac:(lia)) as [-> ->].
    rewrite Z.log2_pow2 by lia. split; [lia|]. right. split; reflexivity.
  - left. assert (Z.log2 (b ^ n) < k) by (apply Z.log2_lt_pow2; lia). lia.
Qed.

(** *** The logarithm *)

Lemma log2_bits_range (n : nat) (y acc : Z) :
  acc * 2 ^ Z.of_nat n <= log2_bits n y acc < (acc + 1) * 2 ^ Z.of_nat n.
Proof.
  revert y acc. induction n as [|n IH]; intros y acc.
  - cbn [log2_bits]. change (2 ^ Z.of_nat 0) with 1. lia.
  - cbn [log2_bits]. rewrite Nat2Z.inj_succ, Z.pow_succ_r by lia.
    assert (0 < 2 ^ Z.of_nat n) by (apply Z.pow_pos_nonneg; lia).
    destruct (2 ^ (WP + 1) <=? y * y / 2 ^ WP).
    + specialize (IH (y * y / 2 ^ WP / 2) (2 * acc + 1)). nia.
    + specialize (IH (y * y / 2 ^ WP) (2 * acc)). nia.
Qed.

Lemma log2_bits_one (n : nat) : log2_bits n (2 ^ WP) 0 = 0.
Proof.
  induction n as [|n IH]; [reflexivity|].
  cbn [log2_bits]. rewrite Z.div_mul by (unfold WP; lia).
  destruct (Z.leb_spec (2 ^ (WP + 1)) (2 ^ WP)); [|exact IH].
  exfalso. assert (2 ^ WP < 2 ^ (WP + 1)) by (apply Z.pow_lt_mono_r; unfold WP; lia).
  lia.
Qed.

End Reference.

Section ReferenceLog.

Import RefMath.


Lemma fixed_one_eq : fixed_one = 2 ^ Z.of_nat FB.
Proof. reflexivity. Qed.

Lemma F_pos : 0 < fixed_one.
Proof. rewrite fixed_one_eq. apply Z.pow_pos_nonneg; lia. Qed.

Lemma log2_fix_normal (m : positive) (e : Z) :
  Z.log2 (Zpos m) = 52 ->
  (e + 52) * fixed_one <= log2_fix m e < (e + 53) * fixed_one
  /\ (Zpos m = 2 ^ 52 -> log2_fix m e = (e + 52) * fixed_one).
Proof.
  intros HL. unfold log2_fix. rewrite HL.
  pose proof (log2_bits_range FB (Z.shiftl (Z.pos m) (WP - 52)) 0) as Hb.
  rewrite <- fixed_one_eq in Hb.
  pose proof F_pos. split; [lia|].
  intros ->. rewrite Z.shiftl_mul_pow2 by (unfold WP; lia).
  rewrite <- Z.pow_add_r by (unfold WP; lia).
  replace (52 + (WP - 52)) with WP by lia. rewrite log2_bits_one. lia.
Qed.

Lemma cut_large (t : Z) : 52 < Z.log2 t -> cut t = t / 2 ^ (Z.log2 t - 52).
Proof. intros H. unfold cut. destruct (Z.leb_spec (Z.log2 t) 52); [lia|reflexivity]. Qed.

Lemma scale_split (k : Z) :
  1 <= k < 2 ^ 53 ->
  k * fixed_one = k * 2 ^ (52 - Z.log2 k) * 2 ^ (Z.log2 k + Z.of_nat FB - 52)
  /\ 0 < 2 ^ (Z.log2 k + Z.of_nat FB - 52)
  /\ Z.log2 (k * fixed_one) = Z.log2 k + Z.of_nat FB
  /\ 0 <= Z.log2 k < 53.
Proof.
  intros Hk. assert (HL : 0 <= Z.log2 k < 53).
  { split; [apply Z.log2_nonneg|]. apply Z.log2_lt_pow2; lia. }
  assert (HF : Z.of_nat FB = 128) by reflexivity.
  rewrite fixed_one_eq. split; [|split; [|split]].
  - rewrite <- Z.mul_assoc, <- Z.pow_add_r by lia. do 2 f_equal. lia.
  - apply Z.pow_pos_nonneg; lia.
  - rewrite Z.log2_mul_pow2 by lia. lia.
  - exact HL.
Qed.

Lemma of_fixed_pos (t : Z) : 0 < t -> of_fixed t = round_mag false t (- Z.of_nat FB).
Proof. intros H. destruct t; try lia. reflexivity. Qed.

Lemma of_fixed_lower (k t : Z) :
  0 <= k < 2 ^ 53 -> k * fixed_one <= t -> le (of_Z k) (of_fixed t) = true.
Proof.
  intros Hk Ht. pose proof F_pos as HF.
  assert (HFB : Z.of_nat FB = 128) by reflexivity.
  destruct (Z.eq_dec k 0) as [->|Hk0].
  - destruct (Z.eq_dec t 0) as [->|Ht0]; [reflexivity|].
    rewrite of_fixed_pos by lia.
    pose proof (Z.log2_nonneg t).
    destruct (round_mag_cases false t (- Z.of_nat FB) ltac:(lia) ltac:(lia))
      as [(m & _ & _ & _ & ->)|(_ & _ & ->)];
      match goal with |- context [?a <=? ?b] => destruct (a <=? b) end; reflexivity.
  - destruct (scale_split k ltac:(lia)) as (Hs & Hp & Hlog & HL).
    pose proof (of_Z_small_mantissa k ltac:(lia)) as Hm.
    assert (0 < t) by nia.
    assert (HLt : Z.log2 k + Z.of_nat FB <= Z.log2 t)
      by (rewrite <- Hlog; apply Z.log2_le_mono; lia).
    rewrite of_Z_small, of_fixed_pos by lia.
    apply round_mag_lower; try lia.
    destruct (Z.eq_dec (Z.log2 t) (Z.log2 k + Z.of_nat FB)) as [E|E]; [right|left; lia].
    split; [lia|]. rewrite cut_large by lia.
    apply Z.div_le_lower_bound; [apply Z.pow_pos_nonneg; lia|].
    rewrite E. replace (Z.log2 k + Z.of_nat FB - 52) with (Z.log2 k + Z.of_nat FB - 52) by lia.
    rewrite Z.mul_comm. lia.
Qed.

Lemma of_fixed_upper (k t : Z) :
  1 <= k < 2 ^ 53 -> 0 <= t <= k * fixed_one -> le (of_fixed t) (of_Z k) = true.
Proof.
  intros Hk Ht. pose proof F_pos as HF.
  assert (HFB : Z.of_nat FB = 128) by reflexivity.
  destruct (scale_split k ltac:(lia)) as (Hs & Hp & Hlog & HL).
  pose proof (of_Z_small_mantissa k ltac:(lia)) as Hm.
  rewrite of_Z_small by lia.
  destruct (Z.eq_dec t 0) as [->|Ht0]; [reflexivity|].
  rewrite of_fixed_pos by lia.
  pose proof (Z.log2_nonneg t).
  assert (HLt : Z.log2 t <= Z.log2 k + Z.of_nat FB)
    by (rewrite <- Hlog; apply Z.log2_le_mono; lia).
  apply round_mag_upper; try lia.
  destruct (Z.eq_dec (Z.log2 t) (Z.log2 k + Z.of_nat FB)) as [E|E]; [right|left; lia].
  split; [lia|]. rewrite cut_large by lia. rewrite E.
  destruct (Z.eq_dec t (k * fixed_one)) as [Et|Et].
  - right. unfold cut_exact. rewrite E, Et, Hs, Z.mod_mul, Z.div_mul by lia.
    split; [reflexivity|]. now rewrite orb_true_r.
  - left. apply Z.div_lt_upper_bound; [assumption|]. rewrite Z.mul_comm. lia.
Qed.

Lemma log2_ref_lower (x : number) (k : Z) :
  valid x = true -> is_finite x = true -> 0 <= k <= 1024 ->
  le (pow2 k) x = true -> le (of_Z k) (log2_ref x) = true.
Proof.
  intros Hv Hf Hk Hle.
  destruct (Z.eq_dec k 1024) as [->|Hk'];
    [destruct x as [s|s| |s m e]; try destruct s; discriminate|].
  rewrite pow2_finite in Hle by lia.
  destruct x as [s|s| |s m e]; try discriminate.
  destruct (le_finite_inv _ _ _ _ _ Hle) as [-> He].
  destruct (valid_normal m e Hv ltac:(lia)) as [HL He'].
  destruct (log2_fix_normal m e HL) as [Hr _].
  pose proof F_pos.
  unfold log2_ref. apply of_fixed_lower; [lia|nia].
Qed.

Lemma log2_ref_upper (x : number) (k : Z) :
  valid x = true -> is_finite x = true -> 0 <= k <= 1024 ->
  le (pow2 0) x = true -> le x (pow2 k) = true ->
  le (log2_ref x) (of_Z k) = true.
Proof.
  intros Hv Hf Hk H1 Hle.
  rewrite pow2_finite in H1 by lia.
  destruct x as [s|s| |s m e]; try discriminate.
  destruct (le_finite_inv _ _ _ _ _ H1) as [-> He].
  destruct (valid_normal m e Hv ltac:(lia)) as [HL He'].
  destruct (log2_fix_normal m e HL) as [Hr Hone].
  pose proof F_pos. unfold log2_ref.
  assert (Hm : 2 ^ 52 <= Zpos m) by (rewrite <- HL; apply Z.log2_spec; lia).
  destruct (Z.eq_dec k 1024) as [->|Hk'].
  - apply of_fixed_upper; [lia|nia].
  - rewrite pow2_finite in Hle by lia.
    assert (Hx : e < k - 52 \/ (e = k - 52 /\ Zpos m = 2 ^ 52)).
    { revert Hle. unfold le, SFleb, SFcompare.
      change (PosDef.Pos.compare_cont Eq m (Z.to_pos (2 ^ 52)))
        with (Pos.compare m (Z.to_pos (2 ^ 52))).
      destruct (Z.compare_spec e (k - 52)); try discriminate; [|intros _; lia].
      destruct (Pos.compare_spec m (Z.to_pos (2 ^ 52))) as [E|E|E];
        try discriminate; intros _.
      - right. split; [assumption|]. rewrite E. reflexivity.
      - exfalso. apply Pos2Z.pos_lt_pos in E. rewrite Z2Pos.id in E by lia. lia. }
    destruct Hx as [Hx|[Hx Hx']].
    + apply of_fixed_upper; [lia|nia].
    + specialize (Hone Hx'). rewrite Hone.
      destruct (Z.eq_dec k 0) as [->|Hk0].
      * replace (e + 52) with 0 by lia. reflexivity.
      * apply of_fixed_upper; [lia|nia].
Qed.

End ReferenceLog.

(** The reference implementation has the properties asked. *)
Lemma RefMath_lawful : lawful RefMath.lib.
Proof.
  constructor; cbn [pow_approx log2_approx RefMath.lib].
  - intros b n Hb Hn. destruct (pow_ref_exact b n Hb Hn) as [-> Hv].
    now apply valid_round_mag.
  - apply pow_ref_lower.
  - apply pow_ref_upper.
  - apply log2_ref_lower.
  - apply log2_ref_upper.
Qed.

(** ** The estimator with a lawful Math library *)

Section Estimator.

Import PasswordStatsCalculator.

Lemma class_total (c : ascii) :
  is_lower c || is_upper c || is_digit c || is_other c = true.
Proof. unfold is_other. destruct (is_lower c || is_upper c || is_digit c); reflexivity. Qed.

Lemma test_cons (class : ascii -> bool) (c : ascii) (s : string) :
  test class (String c s) = class c || test class s.
Proof. reflexivity. Qed.

Lemma pool_size_sum (symbolsLength : nat) (password : string) :
  pool_size symbolsLength password
  = (if test is_lower password then 26 else 0)
    + (if test is_upper password then 26 else 0)
    + (if test is_digit password then 10 else 0)
    + (if test is_other password then Z.of_nat symbolsLength else 0).
Proof.
  unfold pool_size.
  destruct (test is_lower password), (test is_upper password),
    (test is_digit password), (test is_other password); lia.
Qed.

Lemma pool_size_bounds (symbolsLength : nat) (password : string) :
  password <> EmptyString ->
  Z.min 10 (Z.of_nat symbolsLength) <= pool_size symbolsLength password
  /\ pool_size symbolsLength password <= 62 + Z.of_nat symbolsLength.
Proof.
  intros Hne. rewrite pool_size_sum.
  destruct password as [|c s]; [congruence|].
  pose proof (class_total c) as Hc. rewrite !test_cons.
  destruct (is_lower c), (is_upper c), (is_digit c), (is_other c); try discriminate Hc;
    cbn [orb];
    destruct (test is_lower s), (test is_upper s), (test is_digit s), (test is_other s);
    lia.
Qed.

Variable M : MathLib.
Hypothesis HM : lawful M.

Lemma pow_integers (b n : Z) :
  1 <= b < 2 ^ 53 -> 1 <= n < 2 ^ 53 ->
  JSMath.pow M (of_Z b) (of_Z n) = pow_approx M (of_Z b) (of_Z n).
Proof. intros Hb Hn. rewrite (of_Z_small b), (of_Z_small n) by assumption. reflexivity. Qed.

Lemma of_Z_finite (k : Z) : 0 <= k < 2 ^ 53 -> le (of_Z k) Infinity = true.
Proof.
  intros Hk. destruct (Z.eq_dec k 0) as [->|]; [reflexivity|].
  rewrite of_Z_small by lia. reflexivity.
Qed.

(** [Math.log2] of a result of [pow_approx] that is at least 2^k. *)
Lemma log2_above (r : number) (k : Z) :
  valid r = true -> 1 <= k <= 1024 -> le (pow2 k) r = true ->
  le (of_Z k) (JSMath.log2 M r) = true
  /\ (r = Infinity -> JSMath.log2 M r = Infinity)
  /\ (r <> Infinity -> JSMath.log2 M r = log2_approx M r /\ is_finite r = true).
Proof.
  intros Hv Hk Hle.
  destruct r as [s|s| |s m e]; try (destruct s); try discriminate;
    try (unfold pow2 in Hle; destruct (k <=? 1023); discriminate).
  - split; [apply of_Z_finite; lia|]. split; [reflexivity|].
    intros H. exfalso. apply H. reflexivity.
  - assert (Hk' : k <= 1023).
    { destruct (Z.leb_spec k 1023) as [H|H]; [assumption|].
      unfold pow2 in Hle. destruct (Z.leb_spec k 1023); [lia|discriminate]. }
    pose proof Hle as Hle'. rewrite pow2_finite in Hle' by assumption.
    destruct (le_finite_inv _ _ _ _ _ Hle') as [_ He].
    assert (E : JSMath.log2 M (S754_finite false m e) = log2_approx M (S754_finite false m e)).
    { unfold JSMath.log2, SFeqb, lt, SFltb.
      change JSMath.one with (S754_finite false 4503599627370496 (-52)).
      cbn [SFcompare zero].
      destruct (Z.compare_spec e (-52)); try (exfalso; lia). reflexivity. }
    rewrite E. split; [|split; [discriminate|split; reflexivity]].
    apply (log2_lower M HM); try assumption; [reflexivity|lia].
Qed.

Variable password : string.
Hypothesis Hlen : Z.of_nat (String.length password) < 2 ^ 53.

Let pool : Z := pool_size (List.length (getAll SymbolSet)) password.
Let n : Z := Z.of_nat (String.length password).

Lemma entropy_unfold :
  entropyBits (statsCalculator M password) = JSMath.log2 M (JSMath.pow M (of_Z pool) (of_Z n)).
Proof. reflexivity. Qed.

Lemma nonempty_sizes :
  password <> EmptyString -> 10 <= pool <= 94 /\ 1 <= n /\ 10 <= pool ^ n.
Proof.
  clear Hlen. intros Hne. subst pool n.
  pose proof (pool_size_bounds (List.length (getAll SymbolSet)) password Hne) as Hp.
  change (Z.of_nat (List.length (getAll SymbolSet))) with 32 in Hp.
  assert (1 <= Z.of_nat (String.length password))
    by (destruct password; [congruence|cbn [String.length]; lia]).
  split; [lia|]. split; [lia|].
  transitivity (pool_size (List.length (getAll SymbolSet)) password ^ 1); [lia|].
  apply Z.pow_le_mono_r; lia.
Qed.

Lemma entropy_lower (k : Z) :
  password <> EmptyString -> 1 <= k <= 1024 -> 2 ^ k <= pool ^ n ->
  le (of_Z k) (entropyBits (statsCalculator M password)) = true
  /\ (k = 1024 -> entropyBits (statsCalculator M password) = Infinity).
Proof.
  intros Hne Hk Hle. destruct (nonempty_sizes Hne) as (Hp & Hn & _).
  rewrite entropy_unfold, pow_integers by (subst n; lia).
  pose proof (pow_valid M HM pool n ltac:(lia) ltac:(subst n; lia)) as Hv.
  pose proof (pow_lower M HM pool n k ltac:(lia) ltac:(subst n; lia) ltac:(lia) Hle) as Hr.
  destruct (log2_above _ k Hv Hk Hr) as (H1 & H2 & _).
  split; [assumption|]. intros ->. apply H2.
  destruct (pow_approx M (of_Z pool) (of_Z n)) as [s|s| |s m e];
    try destruct s; try discriminate. reflexivity.
Qed.

Lemma entropy_upper (k : Z) :
  password <> EmptyString -> 1 <= k <= 1023 -> pool ^ n <= 2 ^ k ->
  le (entropyBits (statsCalculator M password)) (of_Z k) = true.
Proof.
  intros Hne Hk Hle. destruct (nonempty_sizes Hne) as (Hp & Hn & H10).
  rewrite entropy_unfold, pow_integers by (subst n; lia).
  pose proof (pow_valid M HM pool n ltac:(lia) ltac:(subst n; lia)) as Hv.
  pose proof (pow_lower M HM pool n 3 ltac:(lia) ltac:(subst n; lia) ltac:(lia) ltac:(lia)) as H3.
  pose proof (pow_lower M HM pool n 0 ltac:(lia) ltac:(subst n; lia) ltac:(lia) ltac:(lia)) as H0.
  pose proof (pow_upper M HM pool n k ltac:(lia) ltac:(subst n; lia) ltac:(lia) Hle) as Hr.
  destruct (log2_above _ 3 Hv ltac:(lia) H3) as (_ & _ & Hfin).
  assert (Hni : pow_approx M (of_Z pool) (of_Z n) <> Infinity).
  { intros E. rewrite E, pow2_finite in Hr by lia. discriminate. }
  destruct (Hfin Hni) as [-> Hf].
  apply (log2_upper M HM); try assumption. lia.
Qed.

End Estimator.

(** ** The estimator on every password *)

Section EstimatorClaims.

Import PasswordStatsCalculator.

Lemma le_bounds_finite (x lo hi : number) :
  is_finite lo = true -> is_finite hi = true ->
  le lo x = true -> le x hi = true -> is_finite x = true.
Proof.
  destruct x as [s|s| |s m e], lo as [sl|sl| |sl ml el], hi as [sh|sh| |sh mh eh];
    try destruct s; try destruct sl; try destruct sh; try reflexivity; try discriminate.
Qed.

Lemma le_not_nan (x y : number) : le x y = true -> is_nan y = false.
Proof. destruct x as [s|s| |s m e], y as [t|t| |t m' e']; try reflexivity; try destruct s; discriminate. Qed.




(** C8, as the code has it. [entropyBits] is never NaN and never negative;
    it is finite while pool^length stays within 2^1023, and +Infinity once
    pool^length reaches 2^1024. *)
Theorem entropy_range (M : MathLib) (password : string) :
  lawful M -> Z.of_nat (String.length password) < 2 ^ 53 ->
  let pool := pool_size 32 password in
  let n := Z.of_nat (String.length password) in
  let stats := statsCalculator M password in
  is_nan (entropyBits stats) = false
  /\ le zero (entropyBits stats) = true
  /\ (pool ^ n <= 2 ^ 1023 -> is_finite (entropyBits stats) = true)
  /\ (2 ^ 1024 <= pool ^ n -> entropyBits stats = Infinity).
Proof.
  intros HM Hlen pool n stats.
  destruct (string_dec password EmptyString) as [->|Hne].
  - repeat split; try reflexivity. subst pool n. cbn. lia.
  - destruct (nonempty_sizes password Hne) as (Hp & Hn & H10).
    destruct (entropy_lower M HM password Hlen 3 Hne ltac:(lia) ltac:(lia)) as [H3 _].
    change (List.length (getAll SymbolSet)) with 32%nat in Hp, Hn, H10.
    fold pool n in Hp, Hn, H10.
    fold stats in H3.
    split; [now apply (le_not_nan (of_Z 3))|].
    split; [now apply (le_trans zero (of_Z 3))|].
    split.
    + intros Hb. apply (le_bounds_finite _ (of_Z 3) (of_Z 1023)); try reflexivity;
        [assumption|].
      apply (entropy_upper M HM password Hlen 1023 Hne); [lia|exact Hb].
    + intros Hb. apply (entropy_lower M HM password Hlen 1024 Hne); [lia|exact Hb|reflexivity].
Qed.

Lemma entropy_range_witness :
  is_nan (entropyBits (statsCalculator RefMath.lib "aA1!")) = false
  /\ is_finite (entropyBits (statsCalculator RefMath.lib "aA1!")) = true.
Proof.
  pose proof (entropy_range RefMath.lib "aA1!" RefMath_lawful ltac:(reflexivity)) as H.
  cbv zeta in H. destruct H as (H1 & _ & H3 & _).
  split; [exact H1|]. apply H3. vm_compute. discriminate.
Defined.

(** C8 as stated fails: for 218 lowercase letters [entropyBits] is
    +Infinity. *)
Lemma entropy_infinite :
  entropyBits (statsCalculator RefMath.lib Spec.long_password) = S754_infinity false
  /\ is_finite (entropyBits (statsCalculator RefMath.lib Spec.long_password)) = false.
Proof. split; vm_compute; reflexivity. Qed.

(** C9. Every character is in one of the four classes; the alphabet size
    of a non-empty password is at least 10, so it is 0 only for the empty
    password; and [entropyBits] of a non-empty password is positive. *)
Theorem nonempty_entropy_positive (M : MathLib) (password : string) :
  lawful M -> Z.of_nat (String.length password) < 2 ^ 53 ->
  password <> EmptyString ->
  (forall c, is_lower c || is_upper c || is_digit c || is_other c = true)
  /\ 10 <= pool_size 32 password
  /\ pool_size 32 EmptyString = 0
  /\ lt zero (entropyBits (statsCalculator M password)) = true.
Proof.
  intros HM Hlen Hne.
  destruct (nonempty_sizes password Hne) as (Hp & Hn & H10).
  split; [apply class_total|]. split; [apply Hp|]. split; [reflexivity|].
  destruct (entropy_lower M HM password Hlen 3 Hne ltac:(lia) ltac:(lia)) as [H3 _].
  now apply (lt_le_trans zero (of_Z 3)).
Qed.

Lemma nonempty_entropy_positive_witness :
  10 <= pool_size 32 "7"
  /\ lt zero (entropyBits (statsCalculator RefMath.lib "7")) = true.
Proof.
  pose proof (nonempty_entropy_positive RefMath.lib "7" RefMath_lawful
                ltac:(reflexivity) ltac:(discriminate)) as H.
  destruct H as (_ & H2 & _ & H4). split; assumption.
Defined.

End EstimatorClaims.

(** * Further properties *)

(** ** The character sets and the classes of the estimator *)

Section CharSets.

Import PasswordStatsCalculator.

Lemma nodupb_sound (l : list ascii) : Aux.nodupb l = true -> NoDup l.
Proof.
  induction l as [|c l IH]; cbn [Aux.nodupb]; intros H; constructor.
  - apply andb_prop in H. destruct H as [H _]. apply negb_true_iff in H.
    intros Hin. assert (E : existsb (Ascii.eqb c) l = true).
    { apply existsb_exists. exists c. split; [assumption|apply Ascii.eqb_refl]. }
    congruence.
  - apply andb_prop in H. now apply IH.
Qed.

(** A property of all 256 characters holds when it holds of each code. *)
Lemma all_chars (P : ascii -> bool) :
  forallb (fun n => P (ascii_of_nat n)) (seq 0 256) = true -> forall c, P c = true.
Proof.
  intros H c. rewrite forallb_forall in H.
  rewrite <- (ascii_nat_embedding c). apply H. apply in_seq.
  pose proof (nat_ascii_bounded c). lia.
Qed.

Lemma in_existsb (c : ascii) (l : list ascii) :
  In c l <-> existsb (Ascii.eqb c) l = true.
Proof.
  rewrite existsb_exists. split.
  - intros H. exists c. split; [assumption|apply Ascii.eqb_refl].
  - intros (x & Hx & E). apply Ascii.eqb_eq in E. now subst.
Qed.

Lemma class_members (class : ascii -> bool) (set : CharSet) :
  forallb (fun n => Bool.eqb (class (ascii_of_nat n))
                      (existsb (Ascii.eqb (ascii_of_nat n)) (getAll set)))
    (seq 0 256) = true ->
  forall c, In c (getAll set) <-> class c = true.
Proof.
  intros H c. rewrite in_existsb.
  pose proof (all_chars (fun a => Bool.eqb (class a) (existsb (Ascii.eqb a) (getAll set))) H c) as E.
  cbv beta in E.
  apply Bool.eqb_prop in E. rewrite E. reflexivity.
Qed.

Lemma lower_members (c : ascii) : In c (getAll LowerCaseSet) <-> is_lower c = true.
Proof. apply class_members. vm_compute. reflexivity. Qed.

Lemma upper_members (c : ascii) : In c (getAll UpperCaseSet) <-> is_upper c = true.
Proof. apply class_members. vm_compute. reflexivity. Qed.

Lemma digit_members (c : ascii) : In c (getAll NumberSet) <-> is_digit c = true.
Proof. apply class_members. vm_compute. reflexivity. Qed.

Lemma symbol_members (c : ascii) : In c (getAll SymbolSet) -> is_other c = true.
Proof.
  rewrite in_existsb. revert c. 
  assert (H : forall c, implb (existsb (Ascii.eqb c) (getAll SymbolSet)) (is_other c) = true).
  { apply (all_chars (fun a => implb (existsb (Ascii.eqb a) (getAll SymbolSet)) (is_other a))).
    vm_compute. reflexivity. }
  intros c Hc. specialize (H c). rewrite Hc in H. exact H.
Qed.

Lemma classes_exclusive (c : ascii) :
  (is_lower c = true -> is_upper c = false /\ is_digit c = false /\ is_other c = false)
  /\ (is_upper c = true -> is_lower c = false /\ is_digit c = false /\ is_other c = false)
  /\ (is_digit c = true -> is_lower c = false /\ is_upper c = false /\ is_other c = false)
  /\ (is_other c = true -> is_lower c = false /\ is_upper c = false /\ is_digit c = false).
Proof.
  unfold is_other, is_lower, is_upper, is_digit, in_range.
  destruct (Nat.leb_spec 97 (nat_of_ascii c)), (Nat.leb_spec (nat_of_ascii c) 122),
    (Nat.leb_spec 65 (nat_of_ascii c)), (Nat.leb_spec (nat_of_ascii c) 90),
    (Nat.leb_spec 48 (nat_of_ascii c)), (Nat.leb_spec (nat_of_ascii c) 57);
    cbn; repeat split; intros; try reflexivity; try discriminate; lia.
Qed.

End CharSets.

(** X1. The four character sets have 26, 26, 10 and 32 characters, 94
    distinct characters in all; the lowercase, uppercase and digit sets are
    exactly the characters of [a-z], [A-Z] and [0-9], and every symbol is
    outside [a-zA-Z0-9]: the estimator's class tests and the generator's
    sets agree. *)
Theorem charsets_partition (c : ascii) :
  List.length (getAll LowerCaseSet) = 26%nat
  /\ List.length (getAll UpperCaseSet) = 26%nat
  /\ List.length (getAll NumberSet) = 10%nat
  /\ List.length (getAll SymbolSet) = 32%nat
  /\ NoDup (PasswordGenerator.pool_of [LowerCaseSet; UpperCaseSet; NumberSet; SymbolSet])
  /\ (In c (getAll LowerCaseSet) <-> PasswordStatsCalculator.is_lower c = true)
  /\ (In c (getAll UpperCaseSet) <-> PasswordStatsCalculator.is_upper c = true)
  /\ (In c (getAll NumberSet) <-> PasswordStatsCalculator.is_digit c = true)
  /\ (In c (getAll SymbolSet) -> PasswordStatsCalculator.is_other c = true).
Proof.
  repeat split; try reflexivity;
    try (apply lower_members); try (apply upper_members); try (apply digit_members);
    try (apply symbol_members).
  apply nodupb_sound. vm_compute. reflexivity.
Qed.

(** ** The estimator on generated passwords *)

Section GeneratedPasswords.

Import PasswordStatsCalculator.

Lemma generate_in_pool (charSets : list CharSet) (source : nat -> Z) (length : nat)
  (c : ascii) :
  In c (list_ascii_of_string (PasswordGenerator.generate charSets source length)) ->
  In c (PasswordGenerator.pool_of charSets).
Proof.
  destruct (PasswordGenerator.pool_of charSets) as [|a pool] eqn:E.
  - unfold PasswordGenerator.generate. rewrite E. cbn. tauto.
  - rewrite generate_drawn by (rewrite E; discriminate).
    rewrite list_ascii_of_string_of_list_ascii, E. intros H.
    apply in_map_iff in H. destruct H as (i & <- & _).
    apply drawn_in. discriminate.
Qed.

Lemma generate_length (charSets : list CharSet) (source : nat -> Z) (length : nat) :
  PasswordGenerator.pool_of charSets <> [] ->
  String.length (PasswordGenerator.generate charSets source length) = length.
Proof.
  intros H. rewrite generate_drawn by assumption.
  now rewrite length_string_of_list, length_map, length_seq.
Qed.

Lemma test_witness (class : ascii -> bool) (password : string) :
  test class password = true ->
  exists c, In c (list_ascii_of_string password) /\ class c = true.
Proof. unfold test. now rewrite existsb_exists. Qed.

Lemma enabled_cases (S : CharSet) :
  enabled S -> S = LowerCaseSet \/ S = UpperCaseSet \/ S = NumberSet \/ S = SymbolSet.
Proof. unfold enabled. cbn [In]. intuition. Qed.

(** A character of a class drawn from enabled sets comes from the set of
    that class. *)
Lemma class_source (charSets : list CharSet) (c : ascii) :
  Forall enabled charSets -> In c (PasswordGenerator.pool_of charSets) ->
  (is_lower c = true -> In LowerCaseSet charSets)
  /\ (is_upper c = true -> In UpperCaseSet charSets)
  /\ (is_digit c = true -> In NumberSet charSets)
  /\ (is_other c = true -> In SymbolSet charSets).
Proof.
  intros Hen Hc. unfold PasswordGenerator.pool_of in Hc.
  apply in_flat_map in Hc. destruct Hc as (S & HS & HcS).
  rewrite Forall_forall in Hen. specialize (Hen S HS).
  destruct (classes_exclusive c) as (EL & EU & ED & EO).
  destruct (enabled_cases S Hen) as [-> | [-> | [-> | ->]]].
  - apply lower_members in HcS. destruct (EL HcS) as (A & B & C).
    repeat split; intros; congruence.
  - apply upper_members in HcS. destruct (EU HcS) as (A & B & C).
    repeat split; intros; congruence.
  - apply digit_members in HcS. destruct (ED HcS) as (A & B & C).
    repeat split; intros; congruence.
  - apply symbol_members in HcS. destruct (EO HcS) as (A & B & C).
    repeat split; intros; congruence.
Qed.

Lemma present_pool (password : string) :
  pool_size 32 password
  = Z.of_nat (List.length (PasswordGenerator.pool_of (Aux.present password)))
  /\ NoDup (PasswordGenerator.pool_of (Aux.present password)).
Proof.
  rewrite pool_size_sum. unfold Aux.present.
  destruct (test is_lower password), (test is_upper password),
    (test is_digit password), (test is_other password);
    (split; [reflexivity | apply nodupb_sound; vm_compute; reflexivity]).
Qed.

Lemma present_incl (charSets : list CharSet) (password : string) :
  Forall enabled charSets ->
  (forall c, In c (list_ascii_of_string password) ->
             In c (PasswordGenerator.pool_of charSets)) ->
  incl (Aux.present password) charSets.
Proof.
  intros Hen Hin S HS. unfold Aux.present in HS.
  assert (Hsrc : forall class, test class password = true ->
            exists c, In c (PasswordGenerator.pool_of charSets) /\ class c = true).
  { intros class Ht. destruct (test_witness _ _ Ht) as (c & Hc & Hcl).
    exists c. split; [now apply Hin|assumption]. }
  destruct (test is_lower password) eqn:TL, (test is_upper password) eqn:TU,
    (test is_digit password) eqn:TD, (test is_other password) eqn:TO;
    cbn [app In] in HS;
    repeat (destruct HS as [<-|HS]);
    try contradiction;
    match goal with
    | |- In LowerCaseSet _ =>
        destruct (Hsrc is_lower TL) as (c & Hc & Hcl);
        now apply (class_source charSets c Hen Hc)
    | |- In UpperCaseSet _ =>
        destruct (Hsrc is_upper TU) as (c & Hc & Hcl);
        now apply (class_source charSets c Hen Hc)
    | |- In NumberSet _ =>
        destruct (Hsrc is_digit TD) as (c & Hc & Hcl);
        now apply (class_source charSets c Hen Hc)
    | |- In SymbolSet _ =>
        destruct (Hsrc is_other TO) as (c & Hc & Hcl);
        now apply (class_source charSets c Hen Hc)
    end.
Qed.

Lemma pool_of_incl (A B : list CharSet) :
  incl A B -> incl (PasswordGenerator.pool_of A) (PasswordGenerator.pool_of B).
Proof.
  intros H c Hc. unfold PasswordGenerator.pool_of in *.
  apply in_flat_map in Hc. destruct Hc as (S & HS & HcS).
  apply in_flat_map. exists S. split; [now apply H|assumption].
Qed.

End GeneratedPasswords.

(** X3. The estimator never credits a generated password with more than
    the generator used: every class it finds in the password was enabled,
    and the alphabet size it reconstructs is at most the size of the pool
    the password was drawn from. *)
Theorem estimate_within_pool (charSets : list CharSet) (source : nat -> Z)
  (length : nat) :
  Forall enabled charSets ->
  let password := PasswordGenerator.generate charSets source length in
  incl (Aux.present password) charSets
  /\ PasswordStatsCalculator.pool_size 32 password
     <= Z.of_nat (List.length (PasswordGenerator.pool_of charSets)).
Proof.
  intros Hen password.
  assert (Hincl : incl (Aux.present password) charSets).
  { apply present_incl; [assumption|]. intros c. apply generate_in_pool. }
  split; [assumption|].
  destruct (present_pool password) as [-> Hnd].
  apply Nat2Z.inj_le. apply NoDup_incl_length; [assumption|].
  now apply pool_of_incl.
Qed.

Lemma estimate_within_pool_witness :
  PasswordStatsCalculator.pool_size 32
    (PasswordGenerator.generate [LowerCaseSet; NumberSet] (fun i => Z.of_nat i * 26) 8)
  <= 36.
Proof.
  apply (estimate_within_pool [LowerCaseSet; NumberSet] (fun i => Z.of_nat i * 26) 8).
  repeat (constructor; [unfold enabled; cbn [In]; tauto|]). constructor.
Defined.

(** X4. For a password of at least one character drawn from a single
    enabled class, the estimator reconstructs exactly the size of that
    class. *)
Theorem estimate_single_class (S : CharSet) (source : nat -> Z) (length : nat) :
  enabled S -> (1 <= length)%nat ->
  PasswordStatsCalculator.pool_size 32 (PasswordGenerator.generate [S] source length)
  = Z.of_nat (List.length (getAll S)).
Proof.
  intros Hen Hlen.
  set (password := PasswordGenerator.generate [S] source length).
  assert (HF : Forall enabled [S]) by (constructor; [assumption|constructor]).
  assert (Hincl : incl (Aux.present password) [S]).
  { apply present_incl; [assumption|]. intros c. apply generate_in_pool. }
  assert (Hpool : PasswordGenerator.pool_of [S] <> []).
  { apply enabled_pool; [discriminate|assumption]. }
  assert (Hne : password <> EmptyString).
  { intros E. pose proof (generate_length [S] source length Hpool) as HL.
    fold password in HL. rewrite E in HL. cbn in HL. lia. }
  pose proof (pool_size_bounds 32 password Hne) as [Hlo _].
  destruct (present_pool password) as [Hsize _]. rewrite Hsize in *.
  revert Hincl Hlo. unfold Aux.present.
  destruct (PasswordStatsCalculator.test PasswordStatsCalculator.is_lower password),
    (PasswordStatsCalculator.test PasswordStatsCalculator.is_upper password),
    (PasswordStatsCalculator.test PasswordStatsCalculator.is_digit password),
    (PasswordStatsCalculator.test PasswordStatsCalculator.is_other password);
    cbn [app]; intros Hincl Hlo;
    try (exfalso; cbn in Hlo; lia);
    repeat match goal with
    | H : incl (?a :: _) [S] |- _ =>
        let E := fresh "E" in
        assert (E : a = S) by (destruct (H a (or_introl eq_refl)) as [E'|[]]; now symmetry);
        apply incl_cons_inv in H; destruct H as [_ H]
    end;
    try (subst S; reflexivity);
    exfalso; subst S;
    match goal with H : _ = _ :> CharSet |- _ => vm_compute in H; discriminate H end.
Qed.

Lemma estimate_single_class_witness :
  PasswordStatsCalculator.pool_size 32
    (PasswordGenerator.generate [NumberSet] (fun i => Z.of_nat i * 3) 6) = 10.
Proof.
  apply (estimate_single_class NumberSet (fun i => Z.of_nat i * 3) 6).
  - unfold enabled. cbn [In]. tauto.
  - lia.
Defined.

Section Append.

Import PasswordStatsCalculator.

Lemma test_append (class : ascii -> bool) (s t : string) :
  test class (s ++ t) = test class s || test class t.
Proof. unfold test. now rewrite list_of_append, existsb_app. Qed.

End Append.

(** X5. The alphabet size the estimator reconstructs depends on which
    classes occur, not on order or repetition: appending characters never
    lowers it, the size of a concatenation is at most the sum of the sizes,
    and it is the same in either order. *)
Theorem pool_size_append (symbolsLength : nat) (s t : string) :
  PasswordStatsCalculator.pool_size symbolsLength s
    <= PasswordStatsCalculator.pool_size symbolsLength (s ++ t)
  /\ PasswordStatsCalculator.pool_size symbolsLength t
       <= PasswordStatsCalculator.pool_size symbolsLength (s ++ t)
  /\ PasswordStatsCalculator.pool_size symbolsLength (s ++ t)
       <= PasswordStatsCalculator.pool_size symbolsLength s
          + PasswordStatsCalculator.pool_size symbolsLength t
  /\ PasswordStatsCalculator.pool_size symbolsLength (s ++ t)
     = PasswordStatsCalculator.pool_size symbolsLength (t ++ s)
  /\ PasswordStatsCalculator.pool_size symbolsLength (s ++ s)
     = PasswordStatsCalculator.pool_size symbolsLength s.
Proof.
  rewrite !pool_size_sum, !test_append.
  destruct (PasswordStatsCalculator.test PasswordStatsCalculator.is_lower s),
    (PasswordStatsCalculator.test PasswordStatsCalculator.is_upper s),
    (PasswordStatsCalculator.test PasswordStatsCalculator.is_digit s),
    (PasswordStatsCalculator.test PasswordStatsCalculator.is_other s),
    (PasswordStatsCalculator.test PasswordStatsCalculator.is_lower t),
    (PasswordStatsCalculator.test PasswordStatsCalculator.is_upper t),
    (PasswordStatsCalculator.test PasswordStatsCalculator.is_digit t),
    (PasswordStatsCalculator.test PasswordStatsCalculator.is_other t);
    cbn [orb]; lia.
Qed.

(** ** The words behind each index *)

Lemma push_char_word_index (pool : list ascii) (randomBytes : list Z)
  (result : list (option ascii)) (i : nat) (w : Z) :
  nth_error randomBytes i = Some w ->
  PasswordGenerator.push_char pool randomBytes result i
  = (result ++ [nth_error pool (Z.to_nat (Aux.word_index pool w))])%list.
Proof. intros H. unfold PasswordGenerator.push_char. now rewrite H. Qed.

(** X2. The index of line 51 is the word modulo the pool length L, so the
    words that select index k are k, k + L, k + 2L, ...: there are
    floor(2^32 / L) of them, and one more for the indices below 2^32 mod L.
    Two indices differ by at most one word, and all have the same number
    when L divides 2^32. *)
Theorem modulo_bias (pool : list ascii) (k w k' : Z) :
  pool <> [] ->
  let L := Z.of_nat (List.length pool) in
  0 <= k < L -> 0 <= k' < L ->
  ((0 <= w < 2 ^ 32 /\ Aux.word_index pool w = k)
   <-> (exists j, 0 <= j < Aux.words_for L k /\ w = k + j * L))
  /\ -1 <= Aux.words_for L k - Aux.words_for L k' <= 1
  /\ (2 ^ 32 mod L = 0 -> Aux.words_for L k = Aux.words_for L k')
  /\ PasswordGenerator.push_char pool [w] [] 0
     = [nth_error pool (Z.to_nat (Aux.word_index pool w))].
Proof.
  intros Hp L Hk Hk'.
  assert (HL : 0 < L) by (subst L; destruct pool; [congruence|cbn [List.length]; lia]).
  unfold Aux.word_index, Aux.words_for. fold L.
  pose proof (Z.div_mod (2 ^ 32) L ltac:(lia)) as HN.
  pose proof (Z.mod_pos_bound (2 ^ 32) L HL) as HR.
  set (Q := 2 ^ 32 / L) in *. set (R := 2 ^ 32 mod L) in *.
  split; [|split; [|split]].
  - split.
    + intros [Hw Hm]. exists (w / L).
      pose proof (Z.div_mod w L ltac:(lia)) as Hd. rewrite Hm in Hd.
      assert (0 <= w / L) by (apply Z.div_pos; lia).
      split; [|lia].
      destruct (Z.ltb_spec k R); nia.
    + intros (j & Hj & ->). split.
      * destruct (Z.ltb_spec k R); nia.
      * rewrite Z.mod_add by lia. apply Z.mod_small. lia.
  - destruct (Z.ltb_spec k R), (Z.ltb_spec k' R); lia.
  - intros E. destruct (Z.ltb_spec k R), (Z.ltb_spec k' R); lia.
  - reflexivity.
Qed.

Lemma modulo_bias_witness :
  -1 <= Aux.words_for 94 0 - Aux.words_for 94 93 <= 1
  /\ Aux.words_for 94 0 = 45691142 /\ Aux.words_for 94 93 = 45691141.
Proof.
  split; [|split; reflexivity].
  apply (modulo_bias (PasswordGenerator.pool_of [LowerCaseSet; UpperCaseSet; NumberSet; SymbolSet])
           0 0 93).
  - discriminate.
  - cbn. lia.
  - cbn. lia.
Defined.

(** ** The scaling loop *)

Section Scaling.

Import CrackTimeFormatter.

(** X8. The loop of lines 96-99 stops by its own condition after at most
    four turns: more fuel changes nothing, the index stays inside [units],
    and on exit the value is below 1000 or the last unit is reached. *)
Theorem scale_years_exit (years : number) (extra : nat) :
  scale_years (4 + extra) years 0 = scale_years 4 years 0
  /\ (snd (scale_years 4 years 0) <= 4)%nat
  /\ nth_error units (snd (scale_years 4 years 0)) <> None
  /\ ge (fst (scale_years 4 years 0)) (of_Z 1000)
     && (snd (scale_years 4 years 0) <? List.length units - 1)%nat = false.
Proof.
  set (c := of_Z 1000).
  assert (Hstop : forall f y, scale_years f y 4 = (y, 4%nat)).
  { intros f y. destruct f; [reflexivity|]. cbn [scale_years List.length units Nat.sub].
    change (4 <? 4)%nat with false. now rewrite andb_false_r. }
  cbn [scale_years Nat.add List.length units Nat.sub]. fold c.
  change (0 <? 4)%nat with true. change (1 <? 4)%nat with true.
  change (2 <? 4)%nat with true. change (3 <? 4)%nat with true.
  rewrite !andb_true_r, !Hstop.
  destruct (ge years c) eqn:E0;
    [|cbn [fst snd]; rewrite E0; repeat split; try lia; discriminate].
  destruct (ge (div years c) c) eqn:E1;
    [|cbn [fst snd]; rewrite E1; repeat split; try lia; discriminate].
  destruct (ge (div (div years c) c) c) eqn:E2;
    [|cbn [fst snd]; rewrite E2; repeat split; try lia; discriminate].
  destruct (ge (div (div (div years c) c) c) c) eqn:E3;
    [|cbn [fst snd]; rewrite E3; repeat split; try lia; discriminate].
  cbn [fst snd]. change (4 <? 4)%nat with false. rewrite andb_false_r.
  repeat split; try lia; discriminate.
Qed.

End Scaling.

(** ** The tier of an estimate *)

Section Tiers.

Variable M : MathLib.
Hypothesis HM : lawful M.
Variable password : string.
Hypothesis Hlen : Z.of_nat (String.length password) < 2 ^ 53.
Hypothesis Hne : password <> EmptyString.

Let size : Z :=
  PasswordStatsCalculator.pool_size 32 password ^ Z.of_nat (String.length password).
Let bits : number := entropyBits (statsCalculator M password).

Lemma bits_below (b c : Z) :
  1 <= b <= 1023 -> size <= 2 ^ b -> lt (of_Z b) (of_Z c) = true ->
  lt bits (of_Z c) = true.
Proof.
  intros Hb Hs Hbc. apply (le_lt_trans bits (of_Z b)); [|assumption].
  now apply (entropy_upper M HM password Hlen b Hne).
Qed.

Lemma bits_above (a c : Z) :
  1 <= a <= 1024 -> 2 ^ a <= size -> lt (of_Z a) (of_Z c) = false ->
  lt bits (of_Z c) = false.
Proof.
  intros Ha Hs Hac. destruct (lt bits (of_Z c)) eqn:E; [|reflexivity].
  rewrite <- Hac. symmetry. apply (le_lt_trans (of_Z a) bits); [|assumption].
  now apply (entropy_lower M HM password Hlen a Hne).
Qed.

End Tiers.

(** X10. The tier follows the size pool^length of the estimated key space:
    up to 2^27 it is 0, from 2^28 to 2^35 it is 1, from 2^36 to 2^59 it
    is 2, from 2^60 to 2^127 it is 3, and from 2^128 on it is 4. *)
Theorem tier_of_key_space (M : MathLib) (password : string) :
  lawful M -> Z.of_nat (String.length password) < 2 ^ 53 ->
  password <> EmptyString ->
  let size := PasswordStatsCalculator.pool_size 32 password
              ^ Z.of_nat (String.length password) in
  let tier := PasswordStrength.determine (entropyBits (statsCalculator M password)) in
  (size <= 2 ^ 27 -> tier = 0%nat)
  /\ (2 ^ 28 <= size <= 2 ^ 35 -> tier = 1%nat)
  /\ (2 ^ 36 <= size <= 2 ^ 59 -> tier = 2%nat)
  /\ (2 ^ 60 <= size <= 2 ^ 127 -> tier = 3%nat)
  /\ (2 ^ 128 <= size -> tier = 4%nat).
Proof.
  intros HM Hlen Hne size tier. subst tier. unfold PasswordStrength.determine.
  repeat split.
  - intros H.
    now rewrite (bits_below M HM password Hlen Hne 27 28) by (try lia; try assumption; reflexivity).
  - intros [H1 H2].
    rewrite (bits_above M HM password Hlen Hne 28 28) by (try lia; try assumption; reflexivity).
    now rewrite (bits_below M HM password Hlen Hne 35 36) by (try lia; try assumption; reflexivity).
  - intros [H1 H2].
    rewrite (bits_above M HM password Hlen Hne 36 28) by (try lia; try assumption; reflexivity).
    rewrite (bits_above M HM password Hlen Hne 36 36) by (try lia; try assumption; reflexivity).
    now rewrite (bits_below M HM password Hlen Hne 59 60) by (try lia; try assumption; reflexivity).
  - intros [H1 H2].
    rewrite (bits_above M HM password Hlen Hne 60 28) by (try lia; try assumption; reflexivity).
    rewrite (bits_above M HM password Hlen Hne 60 36) by (try lia; try assumption; reflexivity).
    rewrite (bits_above M HM password Hlen Hne 60 60) by (try lia; try assumption; reflexivity).
    now rewrite (bits_below M HM password Hlen Hne 127 128) by (try lia; try assumption; reflexivity).
  - intros H1.
    rewrite (bits_above M HM password Hlen Hne 128 28) by (try lia; try assumption; reflexivity).
    rewrite (bits_above M HM password Hlen Hne 128 36) by (try lia; try assumption; reflexivity).
    rewrite (bits_above M HM password Hlen Hne 128 60) by (try lia; try assumption; reflexivity).
    now rewrite (bits_above M HM password Hlen Hne 128 128) by (try lia; try assumption; reflexivity).
Qed.

Lemma tier_of_key_space_witness :
  PasswordStrength.determine (entropyBits (statsCalculator RefMath.lib "aA1!aA1!aA1!aA1!aA1!"))
  = 4%nat.
Proof.
  apply (tier_of_key_space RefMath.lib "aA1!aA1!aA1!aA1!aA1!" RefMath_lawful).
  - reflexivity.
  - discriminate.
  - vm_compute. discriminate.
Defined.

(** ** The controller *)

Section Controller.

Import PasswordUI.




Lemma generate_blank (i : Inputs) (source : nat -> Z) :
  lwcCheck i || upcCheck i || numbersCheck i || symbolsCheck i = false
  \/ slider i = 0%nat ->
  PasswordGenerator.generate (activeSets i) source (slider i) = EmptyString.
Proof.
  intros [H| ->].
  - unfold activeSets.
    destruct (lwcCheck i), (upcCheck i), (numbersCheck i), (symbolsCheck i);
      try discriminate H. reflexivity.
  - unfold PasswordGenerator.generate.
    now destruct (List.length (PasswordGenerator.pool_of (activeSets i)) =? 0)%nat.
Qed.

End Controller.

(** X6. With no box checked, or with the slider at 0, [updatePassword]
    shows an empty password, "~ 0 Bits", "0.00 Seconds" and the tier
    "Very Weak" in its color, whatever the Math library. *)
Theorem update_blank (M : MathLib) (source : nat -> Z) (i : Inputs) :
  lwcCheck i || upcCheck i || numbersCheck i || symbolsCheck i = false
  \/ slider i = 0%nat ->
  PasswordUI.run M source i
  = Some (mkDisplay EmptyString "~ 0 Bits" "0.00 Seconds" "Very Weak" "#A10702").
Proof.
  intros H. unfold PasswordUI.run, PasswordUI.updatePassword.
  rewrite (generate_blank i source H). reflexivity.
Qed.

Lemma update_blank_witness :
  PasswordUI.run RefMath.lib (fun _ => 7) (mkInputs 16 false false false false)
  = Some (mkDisplay EmptyString "~ 0 Bits" "0.00 Seconds" "Very Weak" "#A10702").
Proof.
  apply (update_blank RefMath.lib (fun _ => 7) (mkInputs 16 false false false false)).
  left. reflexivity.
Defined.





(** X11. [generate] reads the first [length] words of the source and
    nothing else, and of each word only its low 32 bits: two sources that
    agree there give the same password. *)
Theorem generate_reads_length_words (charSets : list CharSet)
  (source1 source2 : nat -> Z) (length : nat) :
  (forall j, (j < length)%nat -> source1 j mod 2 ^ 32 = source2 j mod 2 ^ 32) ->
  PasswordGenerator.generate charSets source1 length
  = PasswordGenerator.generate charSets source2 length.
Proof.
  intros H.
  destruct (PasswordGenerator.pool_of charSets) as [|a pool] eqn:E.
  - unfold PasswordGenerator.generate. now rewrite E.
  - rewrite !generate_drawn by (rewrite E; discriminate). f_equal.
    apply map_ext_in. intros j Hj. apply in_seq in Hj.
    unfold Spec.drawn. rewrite H by lia. reflexivity.
Qed.

Lemma generate_reads_length_words_witness :
  PasswordGenerator.generate [UpperCaseSet] (fun j => Z.of_nat j) 5
  = PasswordGenerator.generate [UpperCaseSet]
      (fun j => if (j <? 5)%nat then Z.of_nat j + 2 ^ 32 else 99) 5.
Proof.
  apply (generate_reads_length_words [UpperCaseSet] (fun j => Z.of_nat j)
           (fun j => if (j <? 5)%nat then Z.of_nat j + 2 ^ 32 else 99) 5).
  intros j Hj. do 5 (destruct j as [|j]; [reflexivity|]). lia.
Defined.
